(** * Voice-controlled cooking mode of foodly: a shallow embedding

    The development models three pieces of the frontend:
    - [useSpeechRecognition] (frontend/src/hooks/useSpeech.ts): the
      recognition engine callbacks [onresult], [onend], [onerror] and the
      effect that follows [isListening];
    - [useSpeechSynthesis] (same file): [stop], [speakBrowser], [speak] and
      the browser events of the Audio element and of speechSynthesis;
    - [StepNavigator] (the cooking-step component): its state, handlers,
      voice command actions and the auto-play effect, the completed steps,
      the step pills, restart and the saved auto-play preference;
    - [CookingView]: the steps it gives to [StepNavigator]
      ([augmentedSteps]);
    - the API client: [handleResponse], [getAuthHeaders] and the requests
      of [getRecipes], [searchRecipes], [deleteRecipe] and [saveRecipe].

    Strings are Rocq [string]s over 8-bit [ascii]; [toLowerCase] and [trim]
    are modelled on ASCII letters and ASCII white space.  Time stamps from
    [Date.now()] are [Z] milliseconds. *)

From Stdlib Require Import String Ascii List ZArith Bool Lia.
Import ListNotations.
Open Scope string_scope.

(** ** String helpers used by the matcher *)

Definition lower_ascii (c : ascii) : ascii :=
  let n := nat_of_ascii c in
  if (65 <=? n)%nat && (n <=? 90)%nat then ascii_of_nat (n + 32) else c.

(** [String.prototype.toLowerCase] on ASCII. *)
Fixpoint toLowerCase (s : string) : string :=
  match s with
  | EmptyString => EmptyString
  | String c s' => String (lower_ascii c) (toLowerCase s')
  end.

Definition is_space (c : ascii) : bool :=
  let n := nat_of_ascii c in
  ((9 <=? n)%nat && (n <=? 13)%nat) || (n =? 32)%nat.

Fixpoint trim_start (s : string) : string :=
  match s with
  | EmptyString => EmptyString
  | String c s' => if is_space c then trim_start s' else s
  end.

Definition rev_string (s : string) : string :=
  string_of_list_ascii (rev (list_ascii_of_string s)).

(** [String.prototype.trim]: white space removed at both ends. *)
Definition trim (s : string) : string :=
  rev_string (trim_start (rev_string (trim_start s))).

(** [s.includes(sub)]: [sub] occurs in [s] at some position. *)
Fixpoint includes (s sub : string) : bool :=
  prefix sub s ||
  match s with
  | EmptyString => false
  | String _ s' => includes s' sub
  end.

(** ** Speech recognition: [useSpeechRecognition] *)

Module Recognition.

(** [VoiceCommand]: the action is identified by a number; what it does is
    the business of the component that registered it. *)
Record VoiceCommand := mkCommand { phrases : list string; action : nat }.

(** [result[0].transcript] and [result.isFinal] of one recognition result. *)
Record SRResult := mkResult { isFinal : bool; transcript0 : string }.

Record SREvent := mkEvent { resultIndex : nat; results : list SRResult }.

(** State of the recognition engine object. *)
Inductive Engine := Idle | Running | Stopping.

Record RecState := mkRec {
  isListening : bool;        (* React state *)
  shouldListen : bool;       (* shouldListenRef.current *)
  transcript : string;       (* React state *)
  lastCommandAt : Z;         (* lastCommandAtRef.current *)
  engine : Engine;
  restartPending : bool;     (* the setTimeout(..., 100) of onend *)
  autoStarts : nat;          (* start() calls made by the restart timer *)
  fired : list nat           (* command actions invoked, in order *)
}.

Definition initial : RecState :=
  mkRec false false "" 0 Idle false 0 [].

(** [recognition.stop()] wrapped in try/catch: stopping an engine that is
    not running throws, which is ignored. *)
Definition engine_stop (e : Engine) : Engine :=
  match e with Running => Stopping | e' => e' end.

(** [recognition.start()] wrapped in try/catch: starting an engine that is
    already started throws, which is ignored. *)
Definition engine_start (e : Engine) : Engine :=
  match e with Idle => Running | e' => e' end.

(** The loop over [event.results] from [event.resultIndex]. *)
Fixpoint collect (rs : list SRResult) (fin interim : string) : string * string :=
  match rs with
  | [] => (fin, interim)
  | r :: rs' =>
      if isFinal r then collect rs' (fin ++ transcript0 r) interim
      else collect rs' fin (interim ++ transcript0 r)
  end.

Definition currentTranscript (ev : SREvent) : string :=
  let '(fin, interim) := collect (skipn (resultIndex ev) (results ev)) "" "" in
  fin ++ interim.

(** The inner loop over [command.phrases]. *)
Fixpoint phrase_matches (lowerTranscript : string) (ps : list string) : bool :=
  match ps with
  | [] => false
  | p :: ps' =>
      if includes lowerTranscript (toLowerCase p) then true
      else phrase_matches lowerTranscript ps'
  end.

(** The outer loop over [commandsRef.current]: the first command with a
    matching phrase. *)
Fixpoint find_command (lowerTranscript : string) (cmds : list VoiceCommand)
  : option VoiceCommand :=
  match cmds with
  | [] => None
  | c :: cmds' =>
      if phrase_matches lowerTranscript (phrases c) then Some c
      else find_command lowerTranscript cmds'
  end.

Definition THROTTLE_MS : Z := 400.

(** [recognition.onresult] at wall-clock time [now]. *)
Definition onresult (cmds : list VoiceCommand) (now : Z) (ev : SREvent)
    (st : RecState) : RecState :=
  let cur := currentTranscript ev in
  let st1 := mkRec (isListening st) (shouldListen st) cur (lastCommandAt st)
                   (engine st) (restartPending st) (autoStarts st) (fired st) in
  if String.eqb cur "" then st1 else
  let lowerTranscript := trim (toLowerCase cur) in
  match find_command lowerTranscript cmds with
  | None => st1
  | Some c =>
      if (now - lastCommandAt st <? THROTTLE_MS)%Z then st1
      else mkRec (isListening st) (shouldListen st) "" now
                 (engine_stop (engine st)) (restartPending st) (autoStarts st)
                 (fired st ++ [action c])
  end.

(** The "end" event of the engine, then [recognition.onend]. *)
Definition onend (st : RecState) : RecState :=
  mkRec (isListening st) (shouldListen st) (transcript st) (lastCommandAt st)
        Idle (restartPending st || shouldListen st) (autoStarts st) (fired st).

(** The body of the 100 ms restart timer scheduled by [onend]. *)
Definition restart_timer (st : RecState) : RecState :=
  if restartPending st then
    if shouldListen st then
      mkRec (isListening st) (shouldListen st) (transcript st) (lastCommandAt st)
            (engine_start (engine st)) false (S (autoStarts st)) (fired st)
    else
      mkRec (isListening st) (shouldListen st) (transcript st) (lastCommandAt st)
            (engine st) false (autoStarts st) (fired st)
  else st.

(** The effect with dependency [isListening]. *)
Definition listening_effect (st : RecState) : RecState :=
  mkRec (isListening st) (isListening st) (transcript st) (lastCommandAt st)
        (if isListening st then engine_start (engine st)
         else engine_stop (engine st))
        (restartPending st) (autoStarts st) (fired st).

(** [setIsListening v] followed by the re-render and its effect, which runs
    only when the value changed. *)
Definition setIsListening (v : bool) (st : RecState) : RecState :=
  if Bool.eqb v (isListening st) then st
  else listening_effect
         (mkRec v (shouldListen st) (transcript st) (lastCommandAt st)
                (engine st) (restartPending st) (autoStarts st) (fired st)).

Definition benign (errorType : string) : bool :=
  String.eqb errorType "no-speech" || String.eqb errorType "aborted".

(** [recognition.onerror]: [setIsListening(false)] and the ref write in
    the handler, then the re-render, whose [isListening] effect runs when the
    state changed. *)
Definition onerror (errorType : string) (st : RecState) : RecState :=
  if negb (String.eqb errorType "no-speech") &&
     negb (String.eqb errorType "aborted")
  then
    let st1 := mkRec false false (transcript st) (lastCommandAt st)
                     (engine st) (restartPending st) (autoStarts st) (fired st) in
    if isListening st then listening_effect st1 else st1
  else st.

(** Engine-side events after an error: the engine ends, the restart timer
    fires. *)
Inductive EngEvent := EvEnd | EvRestart.

Definition eng_step (e : EngEvent) (st : RecState) : RecState :=
  match e with EvEnd => onend st | EvRestart => restart_timer st end.

Fixpoint run_eng (es : list EngEvent) (st : RecState) : RecState :=
  match es with
  | [] => st
  | e :: es' => run_eng es' (eng_step e st)
  end.

(** A run of result events, each with its time stamp. *)
Fixpoint run_results (cmds : list VoiceCommand) (evs : list (Z * SREvent))
    (st : RecState) : RecState :=
  match evs with
  | [] => st
  | (t, ev) :: evs' => run_results cmds evs' (onresult cmds t ev st)
  end.

End Recognition.

(** ** The voice commands registered by [StepNavigator], in order *)

Module AppCommands.
Import Recognition.

Definition CMD_NEXT := 0%nat.
Definition CMD_BACK := 1%nat.
Definition CMD_REPEAT := 2%nat.
Definition CMD_STOP := 3%nat.
Definition CMD_PLAY := 4%nat.
Definition CMD_AUTO_TOGGLE := 5%nat.
Definition CMD_AUTO_ON := 6%nat.
Definition CMD_AUTO_OFF := 7%nat.

Definition voiceCommands : list VoiceCommand := [
  mkCommand ["next"; "next step"; "go next"; "skip"] CMD_NEXT;
  mkCommand ["back"; "previous"; "go back"; "last step"] CMD_BACK;
  mkCommand ["repeat"; "again"; "say again"; "read"] CMD_REPEAT;
  mkCommand ["stop"; "pause"; "quiet"; "hush"] CMD_STOP;
  mkCommand ["play"; "start"; "go"; "begin"] CMD_PLAY;
  mkCommand ["auto play"; "autoplay"; "toggle auto play"; "toggle autoplay"]
    CMD_AUTO_TOGGLE;
  mkCommand ["turn on auto play"; "enable auto play"; "turn on autoplay";
             "enable autoplay"] CMD_AUTO_ON;
  mkCommand ["turn off auto play"; "disable auto play"; "turn off autoplay";
             "disable autoplay"] CMD_AUTO_OFF ].

Definition interim (t : string) : SREvent := mkEvent 0 [mkResult false t].

End AppCommands.

(** ** Speech output: [useSpeechSynthesis]

    The browser side follows the HTML and Web Speech specifications:
    - [audio.play()] returns a promise that stays pending until playback
      starts, and at once queues a task firing the element's "play" event
      (so [audio.onplay] runs before the media has loaded); a [play()]
      refused at request time (NotAllowedError) queues no "play" event;
    - [audio.pause()] on an element whose play promise is pending rejects
      it with AbortError in a task queued after that "play" event;
    - a media error (the source cannot be loaded or playback breaks) fires
      the element's "error" event and rejects a pending play promise, in the
      same task, so both handlers run before anything else;
    - [speechSynthesis.cancel()] removes the current utterance, which gets an
      "error" event ("canceled" or "interrupted"), not an "end" event. *)

Module Synthesis.

Inductive AState := APending | APlaying | APaused | AEnded | AFailed.

(** An [HTMLAudioElement] created by [speak], with the handlers [speak]
    attached to it (they stay attached for the element's lifetime). *)
Record Audio := mkAudio {
  a_text : string;            (* text for the fallback of onerror/catch *)
  a_cb : option nat;          (* onEnd passed to speak *)
  a_state : AState;
  a_playPromise : bool        (* the promise of audio.play() is pending *)
}.

(** A [SpeechSynthesisUtterance] queued by [speakBrowser]. *)
Record Utterance := mkUtt { u_text : string; u_cb : option nat; u_started : bool }.

(** A queued task of an Audio element: the 'play' event that [play()]
    queues ([audio.onplay]), and the rejection of a pending play promise
    by [pause()], which reaches [.catch]. *)
Inductive Task := TPlayEvent (id : nat) | TPlayRejected (id : nat).

Record Player := mkPlayer {
  isSupported : bool;               (* 'speechSynthesis' in window *)
  isSpeaking : bool;                (* React state *)
  utterance : option Utterance;     (* the utterance of speechSynthesis *)
  audios : list Audio;              (* every Audio element, by creation *)
  audioRef : option nat;            (* audioRef.current *)
  tasks : list Task
}.

Definition initial (supported : bool) : Player :=
  mkPlayer supported false None [] None [].

Definition set_speaking (b : bool) (p : Player) : Player :=
  mkPlayer (isSupported p) b (utterance p) (audios p) (audioRef p) (tasks p).

Definition set_utterance (u : option Utterance) (p : Player) : Player :=
  mkPlayer (isSupported p) (isSpeaking p) u (audios p) (audioRef p) (tasks p).

Definition set_audioRef (r : option nat) (p : Player) : Player :=
  mkPlayer (isSupported p) (isSpeaking p) (utterance p) (audios p) r (tasks p).

Fixpoint upd {A} (n : nat) (f : A -> A) (l : list A) : list A :=
  match l, n with
  | [], _ => []
  | x :: l', O => f x :: l'
  | x :: l', S n' => x :: upd n' f l'
  end.

Definition set_audio (id : nat) (st : AState) (promise : bool) (p : Player) : Player :=
  mkPlayer (isSupported p) (isSpeaking p) (utterance p)
    (upd id (fun a => mkAudio (a_text a) (a_cb a) st promise) (audios p))
    (audioRef p) (tasks p).

Definition cb_list (cb : option nat) : list nat :=
  match cb with Some k => [k] | None => [] end.

(** [window.speechSynthesis.cancel()]; the cancelled utterance's
    [onerror] runs [setIsSpeaking(false)]. *)
Definition cancel (p : Player) : Player :=
  match utterance p with
  | Some _ => set_speaking false (set_utterance None p)
  | None => p
  end.

(** [audio.pause()] (and [currentTime = 0]). *)
Definition pause_audio (id : nat) (p : Player) : Player :=
  match nth_error (audios p) id with
  | Some a =>
      match a_state a with
      | APending =>
          let p1 := set_audio id APaused false p in
          mkPlayer (isSupported p1) (isSpeaking p1) (utterance p1) (audios p1)
                   (audioRef p1) (tasks p1 ++ [TPlayRejected id])
      | APlaying => set_audio id APaused (a_playPromise a) p
      | _ => p
      end
  | None => p
  end.

(** [stop]. *)
Definition stop (p : Player) : Player :=
  let p1 := if isSupported p then cancel p else p in
  let p2 := match audioRef p1 with
            | Some id => set_audioRef None (pause_audio id p1)
            | None => p1
            end in
  set_speaking false p2.

(** [speakBrowser(text, onEnd)]. *)
Definition speakBrowser (text : string) (cb : option nat) (p : Player) : Player :=
  if negb (isSupported p) then p
  else set_utterance (Some (mkUtt text cb false)) (cancel p).

(** JavaScript truthiness of [audioUrl?: string | null]. *)
Definition truthy (u : option string) : bool :=
  match u with Some s => negb (String.eqb s "") | None => false end.

(** [speak(text, onEnd, audioUrl)]: the new element gets index
    [length (audios p)]; [audio.play()] sets it playing and queues its
    'play' event. *)
Definition speak (text : string) (cb : option nat) (url : option string)
    (p : Player) : Player :=
  let p1 := stop p in
  if truthy url then
    let id := length (audios p1) in
    mkPlayer (isSupported p1) (isSpeaking p1) (utterance p1)
             (audios p1 ++ [mkAudio text cb APending true])
             (Some id) (tasks p1 ++ [TPlayEvent id])
  else speakBrowser text cb p1.

(** A [play()] refused at request time returns a rejected promise before
    the element leaves the paused state: no 'play' event is queued. *)
Definition drop_play_event (id : nat) (p : Player) : Player :=
  mkPlayer (isSupported p) (isSpeaking p) (utterance p) (audios p) (audioRef p)
    (filter (fun t => match t with TPlayEvent j => negb (Nat.eqb j id) | _ => true end)
            (tasks p)).

(** Browser events; each returns the callbacks ([onEnd]s) it runs. *)
Inductive PEvent :=
  | SynthStart                 (* utterance.onstart *)
  | SynthEnd                   (* utterance.onend: natural end *)
  | SynthError                 (* utterance.onerror: synthesis failure *)
  | AudioPlaying (id : nat)    (* enough data: 'playing' (no handler), the
                                  play promise resolves *)
  | AudioEnded (id : nat)      (* audio.onended *)
  | AudioRejected (id : nat)   (* play() refused at request time *)
  | AudioFailed (id : nat)     (* media error: onerror, pending play rejected *)
  | RunTask.                   (* the oldest queued task runs *)

Definition live (st : AState) : bool :=
  match st with APending | APlaying | APaused => true | _ => false end.

Definition step (e : PEvent) (p : Player) : Player * list nat :=
  match e with
  | SynthStart =>
      match utterance p with
      | Some u => if u_started u then (p, [])
                  else (set_speaking true
                          (set_utterance (Some (mkUtt (u_text u) (u_cb u) true)) p), [])
      | None => (p, [])
      end
  | SynthEnd =>
      match utterance p with
      | Some u => if u_started u
                  then (set_speaking false (set_utterance None p), cb_list (u_cb u))
                  else (p, [])
      | None => (p, [])
      end
  | SynthError =>
      match utterance p with
      | Some _ => (set_speaking false (set_utterance None p), [])
      | None => (p, [])
      end
  | AudioPlaying id =>
      match nth_error (audios p) id with
      | Some a => match a_state a with
                  | APending => (set_audio id APlaying false p, [])
                  | _ => (p, [])
                  end
      | None => (p, [])
      end
  | AudioEnded id =>
      match nth_error (audios p) id with
      | Some a => match a_state a with
                  | APlaying => (set_speaking false (set_audio id AEnded false p),
                                 cb_list (a_cb a))
                  | _ => (p, [])
                  end
      | None => (p, [])
      end
  | AudioRejected id =>
      match nth_error (audios p) id with
      | Some a => if (match a_state a with APending => true | _ => false end)
                     && a_playPromise a
                  then (speakBrowser (a_text a) (a_cb a)
                          (drop_play_event id (set_audio id APaused false p)), [])
                  else (p, [])
      | None => (p, [])
      end
  | AudioFailed id =>
      match nth_error (audios p) id with
      | Some a =>
          if live (a_state a) then
            let p1 := speakBrowser (a_text a) (a_cb a) (set_audio id AFailed false p) in
            if a_playPromise a then (speakBrowser (a_text a) (a_cb a) p1, [])
            else (p1, [])
          else (p, [])
      | None => (p, [])
      end
  | RunTask =>
      match tasks p with
      | TPlayEvent _ :: rest =>
          (set_speaking true (mkPlayer (isSupported p) (isSpeaking p) (utterance p)
                                       (audios p) (audioRef p) rest), [])
      | TPlayRejected id :: rest =>
          let p1 := mkPlayer (isSupported p) (isSpeaking p) (utterance p) (audios p)
                             (audioRef p) rest in
          match nth_error (audios p) id with
          | Some a => (speakBrowser (a_text a) (a_cb a) p1, [])
          | None => (p1, [])
          end
      | [] => (p, [])
      end
  end.

(** Calls of the hook's API and browser events, interleaved. *)
Inductive Act :=
  | CallSpeak (text : string) (cb : option nat) (url : option string)
  | CallStop
  | Event (e : PEvent).

Definition act (a : Act) (p : Player) : Player * list nat :=
  match a with
  | CallSpeak t cb u => (speak t cb u p, [])
  | CallStop => (stop p, [])
  | Event e => step e p
  end.

(** Runs a trace; returns the final player and the callbacks run, in order. *)
Fixpoint exec (acts : list Act) (p : Player) : Player * list nat :=
  match acts with
  | [] => (p, [])
  | a :: acts' =>
      let '(p1, f1) := act a p in
      let '(p2, f2) := exec acts' p1 in
      (p2, (f1 ++ f2)%list)
  end.

(** The texts being played out right now. *)
Definition sounding (p : Player) : list string :=
  match utterance p with
  | Some u => if u_started u then [u_text u] else []
  | None => []
  end ++
  map a_text (filter (fun a => match a_state a with APlaying => true | _ => false end)
                     (audios p)).

End Synthesis.

(** ** The cooking-step component: [StepNavigator]

    React semantics used: the state setters called by one handler are
    batched into one re-render; after it, the auto-play effect runs when one
    of its dependencies [currentStep, isPlaying, autoAdvance, ttsSupported]
    changed.  Closures created during a render (the effect's [onComplete]
    and the [setTimeout] body inside it, [goToNext]) see the values of that
    render.  [isSpeaking] read by the effect is the player's state. *)

Module Navigator.
Import Synthesis.

Record Step := mkStep {
  instruction : string;
  duration : option string;
  tips : option string;
  audio_url : option string
}.

(** The [onComplete] passed by the auto-play effect: the values of the
    render it was created in. *)
Record Closure := mkClosure {
  c_autoAdvance : bool;
  c_currentStep : nat;
  c_isPlaying : bool
}.

(** A pending [setTimeout(..., 3000)] created by such a closure. *)
Record Timer := mkTimer { t_isPlaying : bool; t_currentStep : nat }.

Definition Deps := (nat * bool * bool * bool)%type.

Record Nav := mkNav {
  steps : list Step;
  currentStep : nat;
  autoAdvance : bool;
  isPlaying : bool;
  player : Player;
  closures : list Closure;     (* callback k of the player is closure k *)
  timers : list Timer;         (* pending timers, in creation order *)
  deps : option Deps           (* dependencies at the effect's last run *)
}.

Definition with_player (pl : Player) (n : Nav) : Nav :=
  mkNav (steps n) (currentStep n) (autoAdvance n) (isPlaying n) pl
        (closures n) (timers n) (deps n).

Definition with_step (i : nat) (n : Nav) : Nav :=
  mkNav (steps n) i (autoAdvance n) (isPlaying n) (player n)
        (closures n) (timers n) (deps n).

Definition with_playing (b : bool) (n : Nav) : Nav :=
  mkNav (steps n) (currentStep n) (autoAdvance n) b (player n)
        (closures n) (timers n) (deps n).

Definition with_auto (b : bool) (n : Nav) : Nav :=
  mkNav (steps n) (currentStep n) b (isPlaying n) (player n)
        (closures n) (timers n) (deps n).

Definition with_timers (ts : list Timer) (n : Nav) : Nav :=
  mkNav (steps n) (currentStep n) (autoAdvance n) (isPlaying n) (player n)
        (closures n) ts (deps n).

Definition with_deps (d : option Deps) (n : Nav) : Nav :=
  mkNav (steps n) (currentStep n) (autoAdvance n) (isPlaying n) (player n)
        (closures n) (timers n) d.

Definition lastIndex (n : Nav) : Z := (Z.of_nat (length (steps n)) - 1)%Z.

(** [goToNext] / [goToPrev] of the render where [currentStep] was [c]:
    the guard reads [c], the update reads the latest state. *)
Definition goToNext_at (c : nat) (n : Nav) : Nav :=
  if (Z.of_nat c <? lastIndex n)%Z then with_step (S (currentStep n)) n else n.

Definition goToPrev_at (c : nat) (n : Nav) : Nav :=
  if (0 <? c)%nat then with_step (currentStep n - 1) n else n.

Fixpoint digits (fuel m : nat) (acc : string) : string :=
  match fuel with
  | O => acc
  | S f =>
      let acc' := String (ascii_of_nat (48 + m mod 10)) acc in
      if (m <? 10)%nat then acc' else digits f (m / 10) acc'
  end.

(** [`${m}`] for a natural number. *)
Definition string_of_nat (m : nat) : string := digits (S m) m "".

Definition opt_text (o : option string) : string :=
  match o with Some s => s | None => "" end.

(** The text built by [readCurrentStep]. *)
Definition narration (i : nat) (s : Step) : string :=
  let text := "Step " ++ string_of_nat (S i) ++ ". " ++ instruction s in
  let text := if truthy (duration s)
              then text ++ ". Duration: " ++ opt_text (duration s) ++ "."
              else text in
  if truthy (tips s) then text ++ ". Pro tip: " ++ opt_text (tips s) ++ "."
  else text.

(** [readCurrentStep(onComplete)]. *)
Definition readCurrentStep (cb : option nat) (n : Nav) : Nav :=
  match nth_error (steps n) (currentStep n) with
  | Some s => with_player (speak (narration (currentStep n) s) cb (audio_url s)
                                 (player n)) n
  | None => n
  end.

Definition stopSpeaking (n : Nav) : Nav := with_player (stop (player n)) n.

(** The auto-play effect body. *)
Definition autoplay_effect (n : Nav) : Nav :=
  if isPlaying n && isSupported (player n) then
    let k := length (closures n) in
    let n1 := mkNav (steps n) (currentStep n) (autoAdvance n) (isPlaying n)
                    (player n)
                    (closures n ++ [mkClosure (autoAdvance n) (currentStep n)
                                              (isPlaying n)])
                    (timers n) (deps n) in
    readCurrentStep (Some k) n1
  else if negb (isPlaying n) && isSpeaking (player n) then stopSpeaking n
  else n.

Definition deps_of (n : Nav) : Deps :=
  (currentStep n, isPlaying n, autoAdvance n, isSupported (player n)).

Definition deps_eqb (d1 d2 : Deps) : bool :=
  let '(a1, b1, c1, e1) := d1 in
  let '(a2, b2, c2, e2) := d2 in
  Nat.eqb a1 a2 && Bool.eqb b1 b2 && Bool.eqb c1 c2 && Bool.eqb e1 e2.

(** Re-render after a handler: the effect runs when a dependency changed. *)
Definition commit (n : Nav) : Nav :=
  match deps n with
  | Some d => if deps_eqb d (deps_of n) then n
              else autoplay_effect (with_deps (Some (deps_of n)) n)
  | None => autoplay_effect (with_deps (Some (deps_of n)) n)
  end.

(** Mounting, with the synthesis support already known and the saved
    auto-play preference [auto]. *)
Definition mount (ss : list Step) (auto supported : bool) : Nav :=
  commit (mkNav ss 0 auto false (initial supported) [] [] None).

(** Body of the [onComplete] closure [c]. *)
Definition onComplete (c : Closure) (n : Nav) : Nav :=
  if c_autoAdvance c && (Z.of_nat (c_currentStep c) <? lastIndex n)%Z
  then with_timers (timers n ++ [mkTimer (c_isPlaying c) (c_currentStep c)]) n
  else with_playing false n.

Definition run_callback (k : nat) (n : Nav) : Nav :=
  match nth_error (closures n) k with
  | Some c => onComplete c n
  | None => n
  end.

Fixpoint run_callbacks (ks : list nat) (n : Nav) : Nav :=
  match ks with
  | [] => n
  | k :: ks' => run_callbacks ks' (run_callback k n)
  end.

(** The voice command actions, numbered as in [AppCommands]. *)
Definition voice_action (k : nat) (n : Nav) : Nav :=
  match k with
  | 0 => goToNext_at (currentStep n) (stopSpeaking (with_playing false n))
  | 1 => goToPrev_at (currentStep n) (stopSpeaking (with_playing false n))
  | 2 => readCurrentStep None n
  | 3 => stopSpeaking (with_playing false n)
  | 4 => with_playing true n
  | 5 => with_auto (negb (autoAdvance n)) n
  | 6 => with_playing true (with_auto true n)
  | 7 => with_auto false n
  | _ => n
  end.

Fixpoint remove_nth {A} (k : nat) (l : list A) : list A :=
  match l, k with
  | [], _ => []
  | _ :: l', O => l'
  | x :: l', S k' => x :: remove_nth k' l'
  end.

Inductive NavEvent :=
  | ClickNext                 (* the Next button *)
  | ClickPrev                 (* the Previous button *)
  | ClickPlay                 (* the Play/Pause button *)
  | ToggleAuto                (* the auto-play switch of the settings *)
  | Voice (k : nat)           (* a voice command action *)
  | Browser (e : PEvent)      (* an event of the speech player *)
  | TimerFires (k : nat).     (* the k-th pending 3 s timer fires *)

Definition nav_step (e : NavEvent) (n : Nav) : Nav :=
  match e with
  | ClickNext =>
      if (Z.of_nat (currentStep n) =? lastIndex n)%Z then n   (* disabled *)
      else commit (goToNext_at (currentStep n) (with_playing false n))
  | ClickPrev =>
      if (currentStep n =? 0)%nat then n                      (* disabled *)
      else commit (goToPrev_at (currentStep n) (with_playing false n))
  | ClickPlay => commit (with_playing (negb (isPlaying n)) n)
  | ToggleAuto => commit (with_auto (negb (autoAdvance n)) n)
  | Voice k => commit (voice_action k n)
  | Browser e =>
      let '(pl, ks) := step e (player n) in
      commit (run_callbacks ks (with_player pl n))
  | TimerFires k =>
      match nth_error (timers n) k with
      | Some t =>
          let n1 := with_timers (remove_nth k (timers n)) n in
          commit (if t_isPlaying t then goToNext_at (t_currentStep t) n1 else n1)
      | None => n
      end
  end.

Fixpoint run_nav (es : list NavEvent) (n : Nav) : Nav :=
  match es with
  | [] => n
  | e :: es' => run_nav es' (nav_step e n)
  end.

(** Sample recipes used by the concrete runs below. *)
Definition chop : Step := mkStep "Chop the onions" None None None.
Definition fry : Step := mkStep "Fry them" (Some "5 minutes") None None.
Definition chop_audio : Step := mkStep "Chop the onions" None None (Some "/audio/1.mp3").

End Navigator.

(** ** The listening controls of [useSpeechRecognition] *)

Module Listening.
Import Recognition.

(** [startListening] and [stopListening]. *)
Definition startListening (st : RecState) : RecState := setIsListening true st.

Definition stopListening (st : RecState) : RecState := setIsListening false st.

(** [toggleListening] of the render whose [isListening] is the current
    state. *)
Definition toggleListening (st : RecState) : RecState :=
  if isListening st then stopListening st else startListening st.

(** Everything that can happen to the hook: calls of its API, result
    events, the end of the engine, the 100 ms restart timer, engine
    errors. *)
Inductive RecEvent :=
  | ListenStart
  | ListenStop
  | ListenToggle
  | Result (now : Z) (ev : SREvent)
  | EngineEnd
  | RestartFires
  | EngineError (errorType : string).

Definition rec_step (cmds : list VoiceCommand) (e : RecEvent) (st : RecState)
    : RecState :=
  match e with
  | ListenStart => startListening st
  | ListenStop => stopListening st
  | ListenToggle => toggleListening st
  | Result now ev => onresult cmds now ev st
  | EngineEnd => onend st
  | RestartFires => restart_timer st
  | EngineError t => onerror t st
  end.

Fixpoint run_rec (cmds : list VoiceCommand) (es : list RecEvent) (st : RecState)
    : RecState :=
  match es with
  | [] => st
  | e :: es' => run_rec cmds es' (rec_step cmds e st)
  end.

(** The events by which the user asks to listen. *)
Definition asks_to_listen (e : RecEvent) : bool :=
  match e with ListenStart | ListenToggle => true | _ => false end.

End Listening.

(** ** The rest of [StepNavigator]: completed steps, step pills, restart and
    the saved auto-play preference *)

Module NavigatorUI.
Import Synthesis Navigator.

(** A JavaScript [Set<number>] as the list of its elements in insertion
    order. *)
Definition has (s : list nat) (i : nat) : bool := existsb (Nat.eqb i) s.

Definition set_delete (i : nat) (s : list nat) : list nat :=
  filter (fun j => negb (Nat.eqb j i)) s.

Definition set_add (i : nat) (s : list nat) : list nat :=
  if has s i then s else (s ++ [i])%list.

(** The updater passed to [setCompletedSteps] by [toggleStepComplete] (and
    to [setCheckedIngredients] by [toggleIngredient] of [CookingView], the
    same code). *)
Definition toggleStepComplete (stepIndex : nat) (prev : list nat) : list nat :=
  if has prev stepIndex then set_delete stepIndex prev
  else set_add stepIndex prev.

(** A step pill: [setCurrentStep(index); setIsPlaying(false)]. *)
Definition click_pill (index : nat) (n : Nav) : Nav :=
  commit (with_playing false (with_step index n)).

(** [resetRecipe]; the completed steps are kept next to the navigator. *)
Definition resetRecipe (n : Nav) (completed : list nat) : Nav * list nat :=
  (commit (with_playing false (with_step 0 n)), []).

(** [localStorage] as an association list, the latest write first. *)
Definition Storage := list (string * string).

Fixpoint getItem (k : string) (s : Storage) : option string :=
  match s with
  | [] => None
  | (k', v) :: s' => if String.eqb k k' then Some v else getItem k s'
  end.

Definition setItem (k v : string) (s : Storage) : Storage :=
  (k, v) :: filter (fun kv => negb (String.eqb k (fst kv))) s.

Definition AUTO_PLAY_KEY : string := "foodly:autoPlay".

(** The initializer of the [autoAdvance] state. *)
Definition load_autoAdvance (s : Storage) : bool :=
  match getItem AUTO_PLAY_KEY s with
  | Some v => String.eqb v "true"
  | None => false
  end.

(** The effect persisting [autoAdvance]. *)
Definition persist_autoAdvance (n : Nav) (s : Storage) : Storage :=
  setItem AUTO_PLAY_KEY (if autoAdvance n then "true" else "false") s.

End NavigatorUI.

(** ** [CookingView]: the steps given to [StepNavigator] *)

Module Cooking.
Import Synthesis Navigator.

(** [Step] of the types module; [StepNavigator] never reads [number]. *)
Record RStep := mkRStep {
  number : nat;
  r_instruction : string;
  r_duration : option string;
  r_tips : option string;
  r_audio_url : option string
}.

(** The fields of [Recipe] that [augmentedSteps] reads. *)
Record Recipe := mkRecipe {
  description : option string;
  r_steps : list RStep;
  intro_text : option string;
  outro_text : option string;
  intro_audio_url : option string;
  outro_audio_url : option string
}.

(** [a || b] for an optional string and a string. *)
Definition or_else (a : option string) (b : string) : string :=
  if truthy a then opt_text a else b.

Definition has_intro (r : Recipe) : bool :=
  truthy (intro_text r) || truthy (intro_audio_url r).

Definition has_outro (r : Recipe) : bool :=
  truthy (outro_text r) || truthy (outro_audio_url r).

(** The body of the [augmentedSteps] memo: pushes onto [stepsList]. *)
Definition augmentedSteps (recipe : Recipe) : list RStep :=
  let stepsList : list RStep := [] in
  let stepsList :=
    if has_intro recipe then
      (stepsList ++ [mkRStep 0
                       (or_else (intro_text recipe)
                          (or_else (description recipe)
                             "Welcome to this recipe! Let's get started."))
                       None None (intro_audio_url recipe)])%list
    else stepsList in
  let stepsList := (stepsList ++ r_steps recipe)%list in
  let stepsList :=
    if has_outro recipe then
      (stepsList ++ [mkRStep (length (r_steps recipe) + 1)
                       (or_else (outro_text recipe) "Serve hot and enjoy your meal!")
                       None None (outro_audio_url recipe)])%list
    else stepsList in
  if (0 <? length stepsList)%nat then stepsList else r_steps recipe.

(** A step as [StepNavigator] sees it. *)
Definition to_nav (s : RStep) : Step :=
  mkStep (r_instruction s) (r_duration s) (r_tips s) (r_audio_url s).

(** The [steps] prop of [StepNavigator] rendered by [CookingView]. *)
Definition navigator_steps (recipe : Recipe) : list Step :=
  map to_nav (augmentedSteps recipe).

End Cooking.

(** ** The API client: requests and [handleResponse] *)

Module Api.
Import Synthesis Navigator.

Definition is_unreserved (n : nat) : bool :=
  (n =? 42)%nat || (n =? 45)%nat || (n =? 46)%nat || (n =? 95)%nat ||
  ((48 <=? n)%nat && (n <=? 57)%nat) || ((65 <=? n)%nat && (n <=? 90)%nat) ||
  ((97 <=? n)%nat && (n <=? 122)%nat).

Definition hex_digit (n : nat) : ascii :=
  ascii_of_nat (if (n <? 10)%nat then 48 + n else 55 + n).

(** The application/x-www-form-urlencoded byte serializer used by
    [URLSearchParams.toString()], on the UTF-8 bytes of the string. *)
Fixpoint urlencode (s : string) : string :=
  match s with
  | EmptyString => EmptyString
  | String c s' =>
      let n := nat_of_ascii c in
      (if is_unreserved n then String c EmptyString
       else if (n =? 32)%nat then "+"
       else String "%" (String (hex_digit (n / 16)) (String (hex_digit (n mod 16))
                                                           EmptyString)))
      ++ urlencode s'
  end.

Definition Params := list (string * string).

(** [params.toString()]. *)
Definition serialize (ps : Params) : string :=
  String.concat "&" (map (fun kv => urlencode (fst kv) ++ "=" ++ urlencode (snd kv)) ps).

Definition Headers := list (string * string).

Record Request := mkRequest {
  r_method : string;
  r_url : string;
  r_headers : Headers
}.

(** [`Bearer ${accessToken}`]. *)
Definition bearer (accessToken : option string) : string :=
  "Bearer " ++ opt_text accessToken.

(** [getAuthHeaders(accessToken)]. *)
Definition getAuthHeaders (accessToken : option string) : Headers :=
  ([("Content-Type", "application/json")] ++
   (if truthy accessToken then [("Authorization", bearer accessToken)]
    else []))%list.

(** [accessToken ? { 'Authorization': `Bearer ${accessToken}` } : {}]. *)
Definition bearer_only (accessToken : option string) : Headers :=
  if truthy accessToken then [("Authorization", bearer accessToken)]
  else [].

(** [params.append('anonymous_user_id', anonymousUserId)] under the
    guard [anonymousUserId && !accessToken]. *)
Definition append_anonymous (anonymousUserId accessToken : option string)
    (ps : Params) : Params :=
  if truthy anonymousUserId && negb (truthy accessToken)
  then (ps ++ [("anonymous_user_id", opt_text anonymousUserId)])%list
  else ps.

Definition getRecipes_params (skip limit : nat)
    (anonymousUserId accessToken : option string) : Params :=
  append_anonymous anonymousUserId accessToken
    [("skip", string_of_nat skip); ("limit", string_of_nat limit)].

Definition getRecipes (API_URL : string) (skip limit : nat)
    (anonymousUserId accessToken : option string) : Request :=
  mkRequest "GET"
    (API_URL ++ "/api/recipes?" ++
     serialize (getRecipes_params skip limit anonymousUserId accessToken))
    (bearer_only accessToken).

Definition searchRecipes_params (query : string)
    (anonymousUserId accessToken : option string) : Params :=
  append_anonymous anonymousUserId accessToken [("q", query)].

Definition searchRecipes (API_URL query : string)
    (anonymousUserId accessToken : option string) : Request :=
  mkRequest "GET"
    (API_URL ++ "/api/recipes/search?" ++
     serialize (searchRecipes_params query anonymousUserId accessToken))
    (bearer_only accessToken).

Definition owner_params (anonymousUserId accessToken : option string) : Params :=
  append_anonymous anonymousUserId accessToken [].

Definition deleteRecipe (API_URL : string) (id : nat)
    (anonymousUserId accessToken : option string) : Request :=
  let params := owner_params anonymousUserId accessToken in
  let url := if negb (String.eqb (serialize params) "")
             then API_URL ++ "/api/recipes/" ++ string_of_nat id ++ "?" ++ serialize params
             else API_URL ++ "/api/recipes/" ++ string_of_nat id in
  mkRequest "DELETE" url (bearer_only accessToken).

Definition saveRecipe (API_URL : string)
    (anonymousUserId accessToken : option string) : Request :=
  let params := owner_params anonymousUserId accessToken in
  let url := if negb (String.eqb (serialize params) "")
             then API_URL ++ "/api/recipes/save?" ++ serialize params
             else API_URL ++ "/api/recipes/save" in
  mkRequest "POST" url (getAuthHeaders accessToken).











End Api.

(** ** Predicates used to state the properties *)

Module RecognitionSpec.
Import Recognition.

(** The spec's reading of the matcher: a command is hit by a transcript when
    one of its phrases, lowercased, is a substring of the lowercased and
    trimmed transcript; the selected command is the first hit in order. *)
Definition phrase_hit (T : string) (c : VoiceCommand) : Prop :=
  exists p, In p (phrases c) /\ includes (trim (toLowerCase T)) (toLowerCase p) = true.

Definition first_selected (T : string) (cmds : list VoiceCommand)
    (c : VoiceCommand) : Prop :=
  exists pre post, cmds = (pre ++ c :: post)%list /\ phrase_hit T c /\
    Forall (fun d => ~ phrase_hit T d) pre.

(** When a result event invokes a command. *)
Definition fires (cmds : list VoiceCommand) (now : Z) (ev : SREvent)
    (st : RecState) : bool :=
  negb (String.eqb (currentTranscript ev) "") &&
  match find_command (trim (toLowerCase (currentTranscript ev))) cmds with
  | None => false
  | Some _ => negb (now - lastCommandAt st <? THROTTLE_MS)%Z
  end.

(** A result event whose transcript matches some command. *)
Definition matches (cmds : list VoiceCommand) (ev : SREvent) : Prop :=
  currentTranscript ev <> "" /\
  find_command (trim (toLowerCase (currentTranscript ev))) cmds <> None.

End RecognitionSpec.

Module SynthesisSpec.
Import Synthesis.

(** No earlier playback can still act: no queued task and every Audio
    element created before has ended or failed. *)
Definition quiet (p : Player) : Prop :=
  tasks p = [] /\ Forall (fun a => live (a_state a) = false) (audios p).

(** The callback held by the current utterance. *)
Definition holds (p : Player) : list nat :=
  match utterance p with Some u => cb_list (u_cb u) | None => [] end.

Definition is_prefix (l1 l2 : list nat) : Prop := exists r, (l1 ++ r)%list = l2.

End SynthesisSpec.

Module ExtraSpec.
Import Synthesis Navigator Api.

(** An Audio element that is loading or playing. *)
Definition active (a : Audio) : bool :=
  match a_state a with APending | APlaying => true | _ => false end.

(** The element held by [audioRef] is the only one that may be loading or
    playing; without speech synthesis there is no utterance. *)
Definition coherent (p : Player) : Prop :=
  (forall i a, nth_error (audios p) i = Some a -> active a = true ->
               audioRef p = Some i) /\
  (isSupported p = false -> utterance p = None).

(** The auto-play effect has run for the current dependencies. *)
Definition settled (n : Nav) : Prop := deps n = Some (deps_of n).

Definition is_timer (e : NavEvent) : bool :=
  match e with TimerFires _ => true | _ => false end.

(** The query carries the anonymous user id. *)
Definition sends_anonymous (ps : Params) : bool :=
  existsb (fun kv => String.eqb (fst kv) "anonymous_user_id") ps.

(** The headers carry an [Authorization] header. *)
Definition sends_bearer (hs : Headers) : bool :=
  existsb (fun kv => String.eqb (fst kv) "Authorization") hs.

(** Every element is neither loading nor playing. *)
Definition no_active (p : Player) : Prop :=
  forall i a, nth_error (audios p) i = Some a -> active a = false.

(** What the auto-play effect and the re-render keep. *)
Definition same_view (m n : Nav) : Prop :=
  steps m = steps n /\ currentStep m = currentStep n /\ autoAdvance m = autoAdvance n /\
  isPlaying m = isPlaying n /\ timers m = timers n /\
  isSupported (player m) = isSupported (player n).

End ExtraSpec.

(** Predicates on the recognition hook and the transcript. *)
Module ListeningSpec.
Import Recognition.

(** The state the hook keeps in step: [shouldListenRef] follows
    [isListening], and the engine is not running while not listening. *)
Definition rec_inv (st : RecState) : Prop :=
  shouldListen st = isListening st /\ (isListening st = false -> engine st <> Running).

(** The concatenated transcripts of a list of results. *)
Definition joined (rs : list SRResult) : string :=
  fold_right String.append "" (map transcript0 rs).

End ListeningSpec.

Module CookingSpec.
Import Synthesis Navigator Cooking.

Definition extra (b : bool) : nat := if b then 1 else 0.

(** A recipe with a description, two steps, an introduction given only by
    its audio, an empty outro text and an outro audio. *)
Definition sample_recipe : Recipe :=
  mkRecipe (Some "Onion fry") [mkRStep 1 "Chop the onions" None None None;
                               mkRStep 2 "Fry them" (Some "5 minutes") None None]
           None (Some "") (Some "/audio/intro.mp3") (Some "/audio/outro.mp3").

End CookingSpec.

(** * Properties *)

Module ListFacts.
Import Synthesis.

Lemma upd_last {A} (l : list A) x f : upd (length l) f (l ++ [x]) = (l ++ [f x])%list.
Proof. induction l as [|y l IH]; simpl; [reflexivity|]. now rewrite IH. Qed.

Lemma nth_error_last {A} (l : list A) x : nth_error (l ++ [x]) (length l) = Some x.
Proof. induction l as [|y l IH]; simpl; auto. Qed.

End ListFacts.

(** ** Recognition: helper lemmas *)

Module RecognitionFacts.
Import Recognition RecognitionSpec.

Lemma phrase_matches_true lt ps :
  phrase_matches lt ps = true <->
  exists p, In p ps /\ includes lt (toLowerCase p) = true.
Proof.
  induction ps as [|p ps IH]; simpl.
  - split; [discriminate | intros (q & [] & _)].
  - destruct (includes lt (toLowerCase p)) eqn:E.
    + split; [intros _; exists p; auto | reflexivity].
    + rewrite IH. split.
      * intros (q & Hq & Hi). exists q. auto.
      * intros (q & [<- | Hq] & Hi); [congruence | eauto].
Qed.

Lemma find_command_first T cmds c :
  first_selected T cmds c ->
  find_command (trim (toLowerCase T)) cmds = Some c.
Proof.
  intros (pre & post & -> & Hc & Hpre).
  induction Hpre as [|d pre Hd _ IH]; simpl.
  - apply phrase_matches_true in Hc. now rewrite Hc.
  - destruct (phrase_matches _ (phrases d)) eqn:E; [|exact IH].
    exfalso. apply Hd. now apply phrase_matches_true in E.
Qed.

Lemma find_command_none T cmds :
  (forall c, In c cmds -> ~ phrase_hit T c) ->
  find_command (trim (toLowerCase T)) cmds = None.
Proof.
  induction cmds as [|d cmds IH]; intros H; simpl; [reflexivity|].
  destruct (phrase_matches _ (phrases d)) eqn:E.
  - exfalso. apply (H d); [now left|]. now apply phrase_matches_true in E.
  - apply IH. intros c Hc. apply H. now right.
Qed.

(** A result event that does not fire only writes the transcript state. *)
Lemma onresult_no_fire cmds now ev st :
  fires cmds now ev st = false ->
  onresult cmds now ev st =
  mkRec (isListening st) (shouldListen st) (currentTranscript ev)
        (lastCommandAt st) (engine st) (restartPending st) (autoStarts st)
        (fired st).
Proof.
  unfold fires, onresult.
  destruct (String.eqb (currentTranscript ev) "") eqn:E; simpl; [reflexivity|].
  destruct (find_command _ cmds); [|reflexivity].
  destruct (now - lastCommandAt st <? THROTTLE_MS)%Z; [reflexivity|discriminate].
Qed.

Lemma onresult_fire cmds now ev st c :
  currentTranscript ev <> "" ->
  find_command (trim (toLowerCase (currentTranscript ev))) cmds = Some c ->
  (lastCommandAt st + THROTTLE_MS <= now)%Z ->
  onresult cmds now ev st =
  mkRec (isListening st) (shouldListen st) "" now (engine_stop (engine st))
        (restartPending st) (autoStarts st) (fired st ++ [action c]).
Proof.
  intros Hne Hf Ht. unfold onresult.
  destruct (String.eqb (currentTranscript ev) "") eqn:E.
  - apply String.eqb_eq in E. contradiction.
  - rewrite Hf. replace (now - lastCommandAt st <? THROTTLE_MS)%Z with false
      by (symmetry; apply Z.ltb_ge; lia). reflexivity.
Qed.

Lemma eng_step_no_auto_start e st :
  shouldListen st = false ->
  autoStarts (eng_step e st) = autoStarts st /\
  shouldListen (eng_step e st) = false /\
  isListening (eng_step e st) = isListening st.
Proof.
  intros H. destruct e; simpl; [auto|].
  unfold restart_timer. destruct (restartPending st); [rewrite H|]; simpl; auto.
Qed.

Lemma run_eng_no_auto_start es st :
  shouldListen st = false ->
  autoStarts (run_eng es st) = autoStarts st /\
  shouldListen (run_eng es st) = false /\
  isListening (run_eng es st) = isListening st.
Proof.
  revert st. induction es as [|e es IH]; intros st H; simpl; [auto|].
  destruct (eng_step_no_auto_start e st H) as (E1 & E2 & E3).
  destruct (IH (eng_step e st) E2) as (H1 & H2 & H3).
  rewrite H1, H3. auto.
Qed.

End RecognitionFacts.

(** ** Recognition: claims *)

Module RecognitionClaims.
Import Recognition AppCommands RecognitionSpec RecognitionFacts.

(** Claim C3 (amended): two matching result events less than the debounce
    window (400 ms) apart invoke at most one command between them; exactly
    one when no command fired within the window before the first of them. *)
Theorem throttle_pair_at_most_one cmds st t1 t2 ev1 ev2 :
  (t2 - t1 < THROTTLE_MS)%Z ->
  let st2 := onresult cmds t2 ev2 (onresult cmds t1 ev1 st) in
  (length (fired st2) <= length (fired st) + 1)%nat /\
  (matches cmds ev1 -> (lastCommandAt st + THROTTLE_MS <= t1)%Z ->
   length (fired st2) = (length (fired st) + 1)%nat).
Proof.
  intros Hw st2. subst st2.
  destruct (fires cmds t1 ev1 st) eqn:F1.
  - unfold fires in F1. apply andb_true_iff in F1 as [Hne Hf].
    apply negb_true_iff in Hne.
    destruct (find_command _ cmds) as [c|] eqn:Hc; [|discriminate].
    apply negb_true_iff, Z.ltb_ge in Hf.
    assert (Hne' : currentTranscript ev1 <> "")
      by (intros E; rewrite E in Hne; discriminate).
    rewrite (onresult_fire cmds t1 ev1 st c Hne' Hc ltac:(unfold THROTTLE_MS in *; lia)).
    rewrite onresult_no_fire.
    + simpl. rewrite length_app. simpl. split; [lia|]. intros; lia.
    + unfold fires. simpl.
      destruct (String.eqb (currentTranscript ev2) ""); simpl; [reflexivity|].
      destruct (find_command (trim (toLowerCase (currentTranscript ev2))) cmds);
        [|reflexivity].
      replace (t2 - t1 <? THROTTLE_MS)%Z with true by (symmetry; apply Z.ltb_lt; lia).
      reflexivity.
  - rewrite (onresult_no_fire cmds t1 ev1 st F1). split.
    + set (st1 := mkRec _ _ _ _ _ _ _ _).
      destruct (fires cmds t2 ev2 st1) eqn:F2.
      * unfold fires in F2. apply andb_true_iff in F2 as [Hne Hf].
        apply negb_true_iff in Hne.
        destruct (find_command _ cmds) as [c|] eqn:Hc; [|discriminate].
        apply negb_true_iff, Z.ltb_ge in Hf.
        assert (Hne' : currentTranscript ev2 <> "")
          by (intros E; rewrite E in Hne; discriminate).
        rewrite (onresult_fire cmds t2 ev2 st1 c Hne' Hc ltac:(lia)).
        simpl. rewrite length_app. simpl. lia.
      * rewrite (onresult_no_fire cmds t2 ev2 st1 F2). simpl. lia.
    + intros [Hne Hf] Ht. exfalso. unfold fires in F1.
      destruct (String.eqb (currentTranscript ev1) "") eqn:E.
      * apply String.eqb_eq in E. contradiction.
      * destruct (find_command _ cmds); [|contradiction].
        simpl in F1. apply negb_false_iff, Z.ltb_lt in F1. lia.
Qed.

(** Witness for [throttle_pair_at_most_one]. *)
Lemma throttle_pair_at_most_one_witness :
  (5100 - 5000 < THROTTLE_MS)%Z /\
  (let st2 := onresult voiceCommands 5100 (interim "next")
                (onresult voiceCommands 5000 (interim "next") initial) in
   (length (fired st2) <= length (fired initial) + 1)%nat /\
   (matches voiceCommands (interim "next") ->
    (lastCommandAt initial + THROTTLE_MS <= 5000)%Z ->
    length (fired st2) = (length (fired initial) + 1)%nat)).
Proof.
  split; [reflexivity|].
  apply (throttle_pair_at_most_one voiceCommands initial 5000 5100
           (interim "next") (interim "next")).
  reflexivity.
Defined.

(** Claim C3, counterexample: a command fired at 1000 ms; two matches at
    1100 ms and 1200 ms, 100 ms apart, invoke no command at all. *)
Lemma throttle_pair_none_fires :
  let st := mkRec true true "" 1000 Running false 0 [CMD_NEXT] in
  let st2 := onresult voiceCommands 1200 (interim "next")
               (onresult voiceCommands 1100 (interim "next") st) in
  matches voiceCommands (interim "next") /\
  (1200 - 1100 < THROTTLE_MS)%Z /\
  length (fired st2) = length (fired st).
Proof.
  split; [split; vm_compute; discriminate|].
  split; reflexivity.
Qed.

Lemma find_command_selected T cmds c :
  find_command (trim (toLowerCase T)) cmds = Some c -> first_selected T cmds c.
Proof.
  induction cmds as [|d cmds IH]; simpl; [discriminate|].
  destruct (phrase_matches _ (phrases d)) eqn:E.
  - intros [= <-]. exists [], cmds. split; [reflexivity|].
    split; [now apply phrase_matches_true in E | constructor].
  - intros Hf. destruct (IH Hf) as (pre & post & -> & Hc & Hpre).
    exists (d :: pre), post. split; [reflexivity|]. split; [exact Hc|].
    constructor; [|exact Hpre].
    intros Hd. apply phrase_matches_true in Hd. congruence.
Qed.

(** Claim C4: the matcher's result on the lowercased trimmed transcript
    [T] is exactly the first command, in list order, with a phrase that,
    lowercased, is a substring of it; a result event invokes at most one
    command, and only that one (always, for a nonempty transcript outside
    the debounce window); when no command has such a phrase, nothing is
    invoked and the only state written is the transcript display, which
    shows the recognised text. *)
Theorem matcher_selects_first cmds now ev st :
  let T := currentTranscript ev in
  let st' := onresult cmds now ev st in
  (forall c, find_command (trim (toLowerCase T)) cmds = Some c <->
             first_selected T cmds c) /\
  (fired st' = fired st \/
   exists c, first_selected T cmds c /\ fired st' = (fired st ++ [action c])%list) /\
  (T <> "" -> (lastCommandAt st + THROTTLE_MS <= now)%Z ->
   forall c, first_selected T cmds c -> fired st' = (fired st ++ [action c])%list) /\
  ((forall c, In c cmds -> ~ phrase_hit T c) ->
   st' = mkRec (isListening st) (shouldListen st) T (lastCommandAt st) (engine st)
               (restartPending st) (autoStarts st) (fired st)).
Proof.
  intros T st'. split; [|split; [|split]].
  - intros c. split; [apply find_command_selected | apply find_command_first].
  - destruct (fires cmds now ev st) eqn:Hf.
    + right. unfold fires in Hf. apply andb_true_iff in Hf as [Hne Hf].
      destruct (find_command _ cmds) as [c|] eqn:Hc; [|discriminate].
      apply negb_true_iff, Z.ltb_ge in Hf.
      apply negb_true_iff, String.eqb_neq in Hne.
      exists c. split; [apply find_command_selected, Hc|].
      subst st'. rewrite (onresult_fire cmds now ev st c Hne Hc ltac:(lia)). reflexivity.
    + left. subst st'. rewrite (onresult_no_fire _ _ _ _ Hf). reflexivity.
  - intros Hne Ht c Hsel.
    subst st'. rewrite (onresult_fire cmds now ev st c Hne
                          (find_command_first _ _ _ Hsel) Ht).
    reflexivity.
  - intros Hnone. subst st'. apply onresult_no_fire.
    unfold fires. subst T. rewrite (find_command_none _ _ Hnone).
    apply andb_false_r.
Qed.

(** Witness for [matcher_selects_first]: "Go back please" with the app's
    commands. *)
Lemma matcher_selects_first_witness :
  let T := currentTranscript (interim "Go back please") in
  let st' := onresult voiceCommands 5000 (interim "Go back please") initial in
  fired st' = [CMD_BACK] /\
  ((forall c, find_command (trim (toLowerCase T)) voiceCommands = Some c <->
              first_selected T voiceCommands c) /\
   (fired st' = fired initial \/
    exists c, first_selected T voiceCommands c /\
              fired st' = (fired initial ++ [action c])%list) /\
   (T <> "" -> (lastCommandAt initial + THROTTLE_MS <= 5000)%Z ->
    forall c, first_selected T voiceCommands c ->
    fired st' = (fired initial ++ [action c])%list) /\
   ((forall c, In c voiceCommands -> ~ phrase_hit T c) ->
    st' = mkRec (isListening initial) (shouldListen initial) T (lastCommandAt initial)
                (engine initial) (restartPending initial) (autoStarts initial)
                (fired initial))).
Proof.
  split; [vm_compute; reflexivity|].
  exact (matcher_selects_first voiceCommands 5000 (interim "Go back please") initial).
Defined.

(** Claim C5: a match outside the debounce window invokes the command once,
    clears the transcript, records the time and asks the engine to stop;
    with listening intent still on, the engine's end and the restart timer
    bring it back to a running (fresh) session. *)
Theorem match_fires_clears_and_restarts cmds now ev st c :
  currentTranscript ev <> "" ->
  find_command (trim (toLowerCase (currentTranscript ev))) cmds = Some c ->
  (lastCommandAt st + THROTTLE_MS <= now)%Z ->
  let st' := onresult cmds now ev st in
  fired st' = (fired st ++ [action c])%list /\ transcript st' = "" /\
  lastCommandAt st' = now /\ engine st' = engine_stop (engine st) /\
  (engine st = Running -> shouldListen st = true ->
   engine st' = Stopping /\ engine (run_eng [EvEnd; EvRestart] st') = Running).
Proof.
  intros Hne Hc Ht st'. subst st'.
  rewrite (onresult_fire cmds now ev st c Hne Hc Ht). simpl.
  do 4 (split; [reflexivity|]).
  intros He Hs. rewrite He. split; [reflexivity|].
  unfold onend, restart_timer. simpl. now rewrite Hs, orb_true_r.
Qed.

(** Witness for [match_fires_clears_and_restarts]: the spec's transcript
    "next step please" with the app's commands. *)
Lemma match_fires_clears_and_restarts_witness :
  let st := mkRec true true "nex" 0 Running false 0 [] in
  let c := mkCommand ["next"; "next step"; "go next"; "skip"] CMD_NEXT in
  let ev := interim "next step please" in
  currentTranscript ev <> "" /\
  find_command (trim (toLowerCase (currentTranscript ev))) voiceCommands = Some c /\
  (lastCommandAt st + THROTTLE_MS <= 5000)%Z /\
  (let st' := onresult voiceCommands 5000 ev st in
   fired st' = (fired st ++ [action c])%list /\ transcript st' = "" /\
   lastCommandAt st' = 5000%Z /\ engine st' = engine_stop (engine st) /\
   (engine st = Running -> shouldListen st = true ->
    engine st' = Stopping /\ engine (run_eng [EvEnd; EvRestart] st') = Running)).
Proof.
  split; [vm_compute; discriminate|].
  split; [reflexivity|].
  split; [vm_compute; discriminate|].
  apply match_fires_clears_and_restarts;
    [vm_compute; discriminate | reflexivity | vm_compute; discriminate].
Defined.

Lemma run_results_throttled cmds evs st :
  Forall (fun te : Z * SREvent => (fst te - lastCommandAt st < THROTTLE_MS)%Z) evs ->
  let st' := run_results cmds evs st in
  lastCommandAt st' = lastCommandAt st /\ fired st' = fired st /\
  engine st' = engine st /\ restartPending st' = restartPending st.
Proof.
  revert st. induction evs as [|[t ev] evs IH]; intros st Hall; simpl; [auto|].
  inversion Hall as [|? ? Ht Hrest]; subst. simpl in Ht.
  rewrite onresult_no_fire.
  - set (st1 := mkRec _ _ _ _ _ _ _ _).
    destruct (IH st1 Hrest) as (H1 & H2 & H3 & H4). simpl in *. auto.
  - unfold fires. destruct (String.eqb (currentTranscript ev) ""); [reflexivity|].
    destruct (find_command _ cmds); [|reflexivity].
    replace (t - lastCommandAt st <? THROTTLE_MS)%Z with true
      by (symmetry; apply Z.ltb_lt; exact Ht).
    reflexivity.
Qed.

(** Claim C10: a suppressed match only writes the transcript state (it is
    not cleared); a run of suppressed matches keeps the last-fire time, the
    invoked commands, the engine and the restart timer, so the first match
    at least the window after the last real fire does fire. *)
Theorem throttled_match_is_noop cmds st evs :
  (forall t ev, (t - lastCommandAt st < THROTTLE_MS)%Z ->
   onresult cmds t ev st =
   mkRec (isListening st) (shouldListen st) (currentTranscript ev)
         (lastCommandAt st) (engine st) (restartPending st) (autoStarts st)
         (fired st)) /\
  (Forall (fun te : Z * SREvent => (fst te - lastCommandAt st < THROTTLE_MS)%Z) evs ->
   let st' := run_results cmds evs st in
   lastCommandAt st' = lastCommandAt st /\ fired st' = fired st /\
   engine st' = engine st /\ restartPending st' = restartPending st /\
   (forall t ev c, currentTranscript ev <> "" ->
    find_command (trim (toLowerCase (currentTranscript ev))) cmds = Some c ->
    (lastCommandAt st + THROTTLE_MS <= t)%Z ->
    fired (onresult cmds t ev st') = (fired st ++ [action c])%list)).
Proof.
  split.
  - intros t ev Ht. apply onresult_no_fire. unfold fires.
    destruct (String.eqb (currentTranscript ev) ""); [reflexivity|].
    destruct (find_command _ cmds); [|reflexivity].
    replace (t - lastCommandAt st <? THROTTLE_MS)%Z with true
      by (symmetry; apply Z.ltb_lt; exact Ht).
    reflexivity.
  - intros Hall st'. destruct (run_results_throttled cmds evs st Hall)
      as (H1 & H2 & H3 & H4).
    fold st' in H1, H2, H3, H4.
    repeat split; auto.
    intros t ev c Hne Hc Ht. rewrite <- H1 in Ht.
    rewrite (onresult_fire cmds t ev st' c Hne Hc Ht). simpl. now rewrite H2.
Qed.

(** Witness for [throttled_match_is_noop]: after a fire at 1000 ms, matches
    at 1100, 1300 and 1399 ms are suppressed. *)
Lemma throttled_match_is_noop_witness :
  let st := mkRec true true "" 1000 Running false 0 [CMD_NEXT] in
  let evs := [(1100%Z, interim "next"); (1300%Z, interim "skip");
              (1399%Z, interim "back")] in
  Forall (fun te : Z * SREvent => (fst te - lastCommandAt st < THROTTLE_MS)%Z) evs /\
  (let st' := run_results voiceCommands evs st in
   lastCommandAt st' = lastCommandAt st /\ fired st' = fired st /\
   engine st' = engine st /\ restartPending st' = restartPending st /\
   (forall t ev c, currentTranscript ev <> "" ->
    find_command (trim (toLowerCase (currentTranscript ev))) voiceCommands = Some c ->
    (lastCommandAt st + THROTTLE_MS <= t)%Z ->
    fired (onresult voiceCommands t ev st') = (fired st ++ [action c])%list)).
Proof.
  assert (Hall : Forall (fun te : Z * SREvent =>
            (fst te - lastCommandAt (mkRec true true "" 1000 Running false 0 [CMD_NEXT])
             < THROTTLE_MS)%Z)
            [(1100%Z, interim "next"); (1300%Z, interim "skip");
             (1399%Z, interim "back")])
    by (repeat constructor).
  split; [exact Hall|].
  exact (proj2 (throttled_match_is_noop voiceCommands _ _) Hall).
Defined.

(** Claim C8: a benign engine error ("no-speech" or "aborted") changes
    nothing, and a running session restarts after the engine ends; any other
    error turns listening intent off, and no later engine event restarts the
    engine. *)
Theorem onerror_benign_or_fatal e st :
  (benign e = true ->
   onerror e st = st /\
   (shouldListen st = true -> engine st = Running ->
    engine (run_eng [EvEnd; EvRestart] (onerror e st)) = Running)) /\
  (benign e = false ->
   isListening (onerror e st) = false /\ shouldListen (onerror e st) = false /\
   forall es, autoStarts (run_eng es (onerror e st)) = autoStarts st /\
              isListening (run_eng es (onerror e st)) = false).
Proof.
  unfold benign, onerror. split.
  - intros Hb.
    assert (Hst : (negb (String.eqb e "no-speech") && negb (String.eqb e "aborted"))
                  = false)
      by (destruct (String.eqb e "no-speech"), (String.eqb e "aborted");
          simpl in *; congruence).
    rewrite Hst. split; [reflexivity|]. intros Hs He.
    simpl. unfold onend, restart_timer. simpl. rewrite Hs, orb_true_r. simpl.
    reflexivity.
  - intros Hb. apply orb_false_iff in Hb as [H1 H2]. rewrite H1, H2. simpl.
    set (st1 := mkRec false false _ _ _ _ _ _).
    assert (Hst : isListening (if isListening st then listening_effect st1 else st1)
                  = false /\
                  shouldListen (if isListening st then listening_effect st1 else st1)
                  = false /\
                  autoStarts (if isListening st then listening_effect st1 else st1)
                  = autoStarts st)
      by (destruct (isListening st); simpl; auto).
    destruct Hst as (Hl & Hs & Ha). split; [exact Hl|]. split; [exact Hs|].
    intros es. destruct (run_eng_no_auto_start es _ Hs) as (E1 & _ & E3).
    rewrite E1, E3. auto.
Qed.

(** Witness for [onerror_benign_or_fatal]. *)
Lemma onerror_benign_or_fatal_witness :
  let st := mkRec true true "" 0 Running false 0 [] in
  (benign "network" = true ->
   onerror "network" st = st /\
   (shouldListen st = true -> engine st = Running ->
    engine (run_eng [EvEnd; EvRestart] (onerror "network" st)) = Running)) /\
  (benign "network" = false ->
   isListening (onerror "network" st) = false /\
   shouldListen (onerror "network" st) = false /\
   forall es, autoStarts (run_eng es (onerror "network" st)) = autoStarts st /\
              isListening (run_eng es (onerror "network" st)) = false).
Proof.
  exact (onerror_benign_or_fatal "network" (mkRec true true "" 0 Running false 0 [])).
Defined.

(** Every phrase of the three auto-play commands contains "play", so the
    earlier command "play" (index 4) is the one selected for it: by voice,
    auto-advance is never toggled. *)
Lemma auto_play_phrases_select_play ph :
  In ph (phrases (nth 5 voiceCommands (mkCommand [] 0)) ++
         phrases (nth 6 voiceCommands (mkCommand [] 0)) ++
         phrases (nth 7 voiceCommands (mkCommand [] 0)))%list ->
  option_map action (find_command (trim (toLowerCase ph)) voiceCommands) = Some CMD_PLAY.
Proof.
  simpl. intros H. repeat (destruct H as [<- | H]; [reflexivity|]). destruct H.
Qed.

End RecognitionClaims.

(** ** Speech output: facts and claims *)

Module SynthesisClaims.
Import Synthesis SynthesisSpec ListFacts.

(** Claim C2 fails: [speak("A", cb1, url)] immediately followed by
    [speak("B", cb2)].  The first [stop] pauses A's element while its play
    promise is pending; after A's "play" event, the AbortError reaches A's
    [.catch], whose fallback speaks A, cancelling B: the only callback that
    fires is A's.  With B also given an audio URL, A (synthesis) and B
    (audio) play together. *)
Lemma speak_twice_stale_fallback :
  snd (exec [CallSpeak "A" (Some 1) (Some "/audio/a.mp3");
             CallSpeak "B" (Some 2) None;
             Event RunTask; Event RunTask; Event SynthStart; Event SynthEnd]
            (initial true)) = [1]%nat /\
  sounding (fst (exec [CallSpeak "A" (Some 1) (Some "/audio/a.mp3");
                       CallSpeak "B" (Some 2) (Some "/audio/b.mp3");
                       Event RunTask; Event RunTask; Event (AudioPlaying 1);
                       Event SynthStart]
                      (initial true))) = ["A"; "B"] /\
  snd (exec [CallSpeak "A" (Some 1) (Some "/audio/a.mp3"); CallStop;
             Event RunTask; Event RunTask; Event SynthStart; Event SynthEnd]
            (initial true)) = [1]%nat.
Proof. repeat split; reflexivity. Qed.

Lemma quiet_dead p id a :
  quiet p -> nth_error (audios p) id = Some a -> live (a_state a) = false.
Proof.
  intros [_ Hf] Hn. apply nth_error_In in Hn.
  rewrite Forall_forall in Hf. exact (Hf a Hn).
Qed.

Lemma quiet_step e p :
  quiet p ->
  quiet (fst (step e p)) /\ is_prefix (snd (step e p) ++ holds (fst (step e p))) (holds p).
Proof.
  intros Hq. assert (Hq' := Hq). destruct Hq' as [Ht Hf].
  destruct e as [| | |id|id|id|id|]; simpl.
  - destruct (utterance p) as [u|] eqn:Hu; simpl;
      [destruct (u_started u); simpl|];
      (split; [exact Hq|]); unfold holds; simpl; rewrite ?Hu; exists []; simpl;
      rewrite ?app_nil_r; reflexivity.
  - destruct (utterance p) as [u|] eqn:Hu; simpl;
      [destruct (u_started u); simpl|];
      (split; [exact Hq|]); unfold holds; simpl; rewrite ?Hu; exists []; simpl;
      rewrite ?app_nil_r; reflexivity.
  - destruct (utterance p) as [u|] eqn:Hu; simpl;
      (split; [exact Hq|]); unfold holds; simpl; rewrite ?Hu;
      [exists (cb_list (u_cb u)); reflexivity | exists []; reflexivity].
  - destruct (nth_error (audios p) id) as [a|] eqn:Hn; simpl.
    + pose proof (quiet_dead p id a Hq Hn) as Hd.
      destruct (a_state a); try discriminate; simpl;
        (split; [exact Hq|exists []; apply app_nil_r]).
    + split; [exact Hq|exists []; apply app_nil_r].
  - destruct (nth_error (audios p) id) as [a|] eqn:Hn; simpl.
    + pose proof (quiet_dead p id a Hq Hn) as Hd.
      destruct (a_state a); try discriminate; simpl;
        (split; [exact Hq|exists []; apply app_nil_r]).
    + split; [exact Hq|exists []; apply app_nil_r].
  - destruct (nth_error (audios p) id) as [a|] eqn:Hn; simpl.
    + pose proof (quiet_dead p id a Hq Hn) as Hd.
      destruct (a_state a); try discriminate; simpl;
        (split; [exact Hq|exists []; apply app_nil_r]).
    + split; [exact Hq|exists []; apply app_nil_r].
  - destruct (nth_error (audios p) id) as [a|] eqn:Hn; simpl.
    + rewrite (quiet_dead p id a Hq Hn). simpl.
      split; [exact Hq|exists []; apply app_nil_r].
    + split; [exact Hq|exists []; apply app_nil_r].
  - rewrite Ht. simpl. split; [exact Hq|exists []; apply app_nil_r].
Qed.

Lemma quiet_exec es p :
  quiet p ->
  quiet (fst (exec (map Event es) p)) /\
  is_prefix (snd (exec (map Event es) p) ++ holds (fst (exec (map Event es) p)))
            (holds p).
Proof.
  revert p. induction es as [|e es IH]; intros p Hq; simpl.
  - split; [exact Hq | exists []; apply app_nil_r].
  - destruct (step e p) as [p1 f1] eqn:Hs.
    destruct (quiet_step e p Hq) as [Hq1 [r1 Hr1]]. rewrite Hs in Hq1, Hr1.
    simpl in Hq1, Hr1.
    destruct (IH p1 Hq1) as [Hq2 [r2 Hr2]].
    destruct (exec (map Event es) p1) as [p2 f2]. simpl in *.
    split; [exact Hq2|]. exists (r2 ++ r1)%list.
    rewrite <- Hr1, <- Hr2. rewrite <- !app_assoc. reflexivity.
Qed.

Lemma stop_quiet p :
  quiet p -> isSupported p = true ->
  stop p = mkPlayer true false None (audios p) None [].
Proof.
  intros Hq Hs. assert (Hq' := Hq). destruct Hq' as [Ht _].
  destruct p as [sup spk utt aus ref ts]; simpl in *. subst.
  unfold stop; simpl.
  assert (Hc : cancel (mkPlayer true spk utt aus ref [])
               = mkPlayer true (match utt with Some _ => false | None => spk end)
                          None aus ref [])
    by (unfold cancel; destruct utt; reflexivity).
  rewrite Hc; simpl. destruct ref as [id|]; [|reflexivity].
  unfold pause_audio; simpl.
  destruct (nth_error aus id) as [a|] eqn:Hn; [|reflexivity].
  pose proof (quiet_dead (mkPlayer true spk utt aus (Some id) []) id a Hq Hn) as Hd.
  destruct (a_state a); try discriminate; reflexivity.
Qed.

Lemma speak_quiet p text cb url :
  quiet p -> isSupported p = true -> truthy url = true ->
  speak text cb url p =
  mkPlayer true false None (audios p ++ [mkAudio text cb APending true])
           (Some (length (audios p))) [TPlayEvent (length (audios p))].
Proof.
  intros Hq Hs Hu. unfold speak. rewrite (stop_quiet p Hq Hs), Hu. reflexivity.
Qed.

(** Claim C7 fails: [speak("A", cb1, urlA)] is loading when
    [speak("B", cb2, urlB)] is called, and the browser refuses B's
    [play()] at request time.  B's [.catch] starts the synthesis of B, but
    the element of A, paused by B's [stop], then rejects its play promise
    and A's [.catch] speaks A instead, cancelling B's utterance: the text
    synthesised is A's, only cb1 fires and cb2 never does. *)
Lemma refused_fallback_lost :
  let pre := [CallSpeak "A" (Some 1) (Some "/audio/a.mp3");
              CallSpeak "B" (Some 2) (Some "/audio/b.mp3");
              Event (AudioRejected 1)] in
  utterance (fst (exec pre (initial true))) = Some (mkUtt "B" (Some 2) false) /\
  sounding (fst (exec (pre ++ [Event RunTask; Event RunTask; Event SynthStart])
                      (initial true))) = ["A"] /\
  snd (exec (pre ++ [Event RunTask; Event RunTask; Event SynthStart; Event SynthEnd])
            (initial true)) = [1]%nat.
Proof. repeat split; reflexivity. Qed.

End SynthesisClaims.

(** ** The cooking-step component: claims *)

Module NavigatorClaims.
Import Synthesis Navigator ListFacts.

(** Claim C1 fails: auto-play over [chop; fry]; the narration of step 1
    completes and the 3 s timer is pending when the voice command "stop"
    arrives.  The timer's body tests the [isPlaying] of the render that
    created it, still [true], and advances the cursor to step 2 (no
    narration starts, as the effect now sees [isPlaying = false]).  Without
    the stop, the cursor advances and step 2 is narrated. *)
Lemma stop_during_pause_still_advances :
  let n0 := mount [chop; fry] true true in
  let n := run_nav [ClickPlay; Browser SynthStart; Browser SynthEnd;
                    Voice 3; TimerFires 0] n0 in
  let m := run_nav [ClickPlay; Browser SynthStart; Browser SynthEnd;
                    TimerFires 0] n0 in
  currentStep n = 1%nat /\ isPlaying n = false /\ utterance (player n) = None /\
  currentStep m = 1%nat /\
  utterance (player m) = Some (mkUtt "Step 2. Fry them. Duration: 5 minutes." (Some 1%nat) false).
Proof. repeat split; reflexivity. Qed.

(** Claim C6, counterexample: auto-play over [chop; fry], narration of
    step 1 under way; switching auto-advance off cancels it and queues the
    same text again with a new callback. *)
Lemma auto_off_restarts_narration :
  let n1 := run_nav [ClickPlay; Browser SynthStart] (mount [chop; fry] true true) in
  let n2 := nav_step ToggleAuto n1 in
  utterance (player n1) = Some (mkUtt "Step 1. Chop the onions" (Some 0%nat) true) /\
  utterance (player n2) = Some (mkUtt "Step 1. Chop the onions" (Some 1%nat) false) /\
  sounding (player n2) = [].
Proof. repeat split; reflexivity. Qed.

Lemma autoplay_effect_not_playing n :
  isPlaying n = false ->
  currentStep (autoplay_effect n) = currentStep n /\
  isPlaying (autoplay_effect n) = false /\ timers (autoplay_effect n) = timers n.
Proof.
  intros H. unfold autoplay_effect. rewrite H. simpl.
  destruct (isSpeaking (player n)); simpl; auto.
Qed.

Lemma commit_not_playing n :
  isPlaying n = false ->
  currentStep (commit n) = currentStep n /\
  isPlaying (commit n) = false /\ timers (commit n) = timers n.
Proof.
  intros H. unfold commit.
  destruct (deps n) as [d|];
    [destruct (deps_eqb d (deps_of n)); [auto|]|];
    apply (autoplay_effect_not_playing (with_deps (Some (deps_of n)) n)); exact H.
Qed.

(** Claim C6 (amended): switching auto-advance off while auto-playing
    re-runs the auto-play effect: the player receives a new [speak] of the
    current step's narration (which first stops the narration under way),
    with a new callback that sees auto-advance off; when a player event
    completes that narration, auto-play ends and the cursor stays. *)
Theorem auto_off_restarts_then_exits n s :
  isPlaying n = true -> autoAdvance n = true -> isSupported (player n) = true ->
  deps n = Some (deps_of n) -> nth_error (steps n) (currentStep n) = Some s ->
  let n' := nav_step ToggleAuto n in
  let k := length (closures n) in
  autoAdvance n' = false /\ isPlaying n' = true /\ currentStep n' = currentStep n /\
  player n' = speak (narration (currentStep n) s) (Some k) (audio_url s) (player n) /\
  (forall e pl, step e (player n') = (pl, [k]) ->
   let n'' := nav_step (Browser e) n' in
   isPlaying n'' = false /\ currentStep n'' = currentStep n /\ timers n'' = timers n).
Proof.
  intros Hp Ha Hs Hd Hn n' k.
  assert (Hn'' : n' = mkNav (steps n) (currentStep n) false true
            (speak (narration (currentStep n) s) (Some k) (audio_url s) (player n))
            (closures n ++ [mkClosure false (currentStep n) true])
            (timers n) (Some (currentStep n, true, false, true))).
  { subst n' k. destruct n as [ss cs aa ip pl cl ts dp]; simpl in *.
    subst ip aa. rewrite Hd. unfold nav_step, commit, with_auto, deps_of; simpl.
    rewrite Hs, Nat.eqb_refl. simpl.
    unfold autoplay_effect, with_deps, readCurrentStep; simpl.
    rewrite Hs, Hn. reflexivity. }
  clearbody n'. subst n'.
  split; [reflexivity|]. split; [reflexivity|]. split; [reflexivity|].
  split; [reflexivity|].
  intros e pl He. simpl in He |- *. rewrite He. simpl.
  unfold run_callback. simpl. subst k. rewrite nth_error_last.
  unfold onComplete. simpl.
  destruct (commit_not_playing
              (with_playing false
                 (with_player pl
                    (mkNav (steps n) (currentStep n) false true
                       (speak (narration (currentStep n) s)
                          (Some (length (closures n))) (audio_url s) (player n))
                       (closures n ++ [mkClosure false (currentStep n) true])
                       (timers n) (Some (currentStep n, true, false, true))))))
    as (H1 & H2 & H3); [reflexivity|].
  rewrite H1, H2, H3. auto.
Qed.

(** Witness for [auto_off_restarts_then_exits]: auto-play over
    [chop; fry] while step 1 is being narrated. *)
Lemma auto_off_restarts_then_exits_witness :
  let n := run_nav [ClickPlay; Browser SynthStart] (mount [chop; fry] true true) in
  isPlaying n = true /\ autoAdvance n = true /\ isSupported (player n) = true /\
  deps n = Some (deps_of n) /\ nth_error (steps n) (currentStep n) = Some chop /\
  (let n' := nav_step ToggleAuto n in
   let k := length (closures n) in
   autoAdvance n' = false /\ isPlaying n' = true /\ currentStep n' = currentStep n /\
   player n' = speak (narration (currentStep n) chop) (Some k) (audio_url chop) (player n) /\
   (forall e pl, step e (player n') = (pl, [k]) ->
    let n'' := nav_step (Browser e) n' in
    isPlaying n'' = false /\ currentStep n'' = currentStep n /\ timers n'' = timers n)).
Proof.
  do 5 (split; [reflexivity|]).
  apply auto_off_restarts_then_exits; reflexivity.
Defined.

(** Claim C9 fails: on step 1 of [chop_audio; fry], not auto-playing, the
    voice command "repeat" starts the step's audio, whose "play" event
    sets [isSpeaking]; the Next button is pressed while the audio still
    loads.  The button handler does not stop speech, but the effect does
    ([isPlaying] false, [isSpeaking] true): it pauses the element, whose
    pending play promise rejects, and the stale [.catch] reads step 1 by
    speech synthesis while the cursor is on step 2.  The voice command
    "next" stops speech itself and ends the same way.  The cursor moves are
    clamped: "next" on the last step and "back" on the first keep it. *)
Lemma next_does_not_stop_pending_narration :
  let n0 := mount [chop_audio; fry] false true in
  let n1 := run_nav [Voice 2; Browser RunTask] n0 in
  let n := run_nav [ClickNext; Browser RunTask; Browser SynthStart] n1 in
  let m := run_nav [Voice 0; Browser RunTask; Browser SynthStart] n1 in
  isSpeaking (player n1) = true /\
  currentStep n = 1%nat /\ sounding (player n) = ["Step 1. Chop the onions"] /\
  currentStep m = 1%nat /\ sounding (player m) = ["Step 1. Chop the onions"] /\
  currentStep (nav_step (Voice 0) n) = 1%nat /\
  currentStep (nav_step (Voice 1) n0) = 0%nat.
Proof. repeat split; reflexivity. Qed.

End NavigatorClaims.

(** ** Further properties of the hooks, the navigator, the cooking view
    and the API client *)

Module StringFacts.

Lemma str_app_assoc (a b c : string) : a ++ (b ++ c) = (a ++ b) ++ c.
Proof. induction a as [|x a IH]; simpl; [reflexivity | now rewrite IH]. Qed.

Lemma str_app_nil_r (a : string) : a ++ "" = a.
Proof. induction a as [|x a IH]; simpl; [reflexivity | now rewrite IH]. Qed.

Lemma str_app_nonempty_l (a b : string) : a <> "" -> a ++ b <> "".
Proof. destruct a; simpl; [contradiction | discriminate]. Qed.

End StringFacts.

Module ListeningProps.
Import Recognition Listening ListeningSpec StringFacts.

Lemma engine_stop_not_running e : engine_stop e <> Running.
Proof. destruct e; discriminate. Qed.

Lemma setIsListening_inv v st : rec_inv st -> rec_inv (setIsListening v st).
Proof.
  intros [H1 H2]. unfold setIsListening.
  destruct (Bool.eqb v (isListening st)); [split; assumption|].
  unfold listening_effect; simpl. split; [reflexivity|].
  intros Hv. cbn in Hv |- *. subst v. apply engine_stop_not_running.
Qed.

Lemma onresult_inv cmds now ev st : rec_inv st -> rec_inv (onresult cmds now ev st).
Proof.
  intros [H1 H2]. unfold onresult.
  destruct (String.eqb _ "") ; [split; assumption|].
  destruct (find_command _ cmds); [|split; assumption].
  destruct (_ <? THROTTLE_MS)%Z; [split; assumption|].
  split; [assumption|]. intros _; apply engine_stop_not_running.
Qed.

Lemma rec_step_inv cmds e st : rec_inv st -> rec_inv (rec_step cmds e st).
Proof.
  intros H. assert (H' := H). destruct H' as [H1 H2].
  destruct e as [| | |now ev| | |t]; simpl.
  - apply setIsListening_inv, H.
  - apply setIsListening_inv, H.
  - unfold toggleListening, startListening, stopListening.
    destruct (isListening st); apply setIsListening_inv, H.
  - apply onresult_inv, H.
  - split; [assumption|]. intros _; discriminate.
  - unfold restart_timer. destruct (restartPending st); [|exact H].
    destruct (shouldListen st) eqn:Hs; simpl; split; try assumption.
    rewrite <- H1; discriminate.
  - unfold onerror. destruct (negb _ && negb _); [|exact H].
    destruct (isListening st) eqn:Hl.
    + unfold listening_effect; simpl. split; [reflexivity|].
      intros _; apply engine_stop_not_running.
    + simpl. split; [reflexivity|]. intros _; apply H2; reflexivity.
Qed.

Lemma run_rec_inv cmds es st : rec_inv st -> rec_inv (run_rec cmds es st).
Proof.
  revert st; induction es as [|e es IH]; intros st H; simpl; [exact H|].
  apply IH, rec_step_inv, H.
Qed.

(** [shouldListenRef] mirrors [isListening], and a hook that is not
    listening never has a running engine. *)
Theorem should_listen_mirrors_state cmds es :
  let st := run_rec cmds es initial in
  shouldListen st = isListening st /\ (isListening st = false -> engine st <> Running).
Proof. apply run_rec_inv. split; [reflexivity|]. intros _; discriminate. Qed.

Lemma quiet_rec_step cmds e st :
  rec_inv st -> isListening st = false -> asks_to_listen e = false ->
  isListening (rec_step cmds e st) = false /\
  autoStarts (rec_step cmds e st) = autoStarts st.
Proof.
  intros [H1 H2] Hl He. destruct e as [| | |now ev| | |t]; try discriminate; simpl.
  - unfold stopListening, setIsListening. rewrite Hl. simpl. auto.
  - unfold onresult.
    destruct (String.eqb _ ""); [simpl; auto|].
    destruct (find_command _ cmds); [|simpl; auto].
    destruct (_ <? THROTTLE_MS)%Z; simpl; auto.
  - auto.
  - unfold restart_timer. destruct (restartPending st); [|auto].
    rewrite H1, Hl. simpl. auto.
  - unfold onerror. destruct (negb _ && negb _); [|auto].
    rewrite Hl. simpl. auto.
Qed.

(** After [stopListening], as long as the user does not ask to listen
    again, the hook stays off: whatever results, ends, restart timers and
    errors follow, [isListening] stays false, the engine is not running and
    the restart timer starts nothing. *)
Theorem stop_listening_stays_off cmds pre post :
  Forall (fun e => asks_to_listen e = false) post ->
  let st0 := run_rec cmds pre initial in
  let st := run_rec cmds (ListenStop :: post) st0 in
  isListening st = false /\ engine st <> Running /\ autoStarts st = autoStarts st0.
Proof.
  intros Hpost st0 st.
  assert (Hinv0 : rec_inv st0).
  { apply run_rec_inv. split; [reflexivity|]. intros _; discriminate. }
  assert (Hs : isListening (stopListening st0) = false /\
               autoStarts (stopListening st0) = autoStarts st0).
  { unfold stopListening, setIsListening.
    destruct (isListening st0) eqn:Hl; simpl; auto. }
  assert (Hinv1 : rec_inv (stopListening st0)) by (apply setIsListening_inv, Hinv0).
  subst st. simpl. fold (stopListening st0).
  destruct Hs as [Hs1 Hs2]. rewrite <- Hs2.
  clear Hs2. generalize dependent (stopListening st0). clear st0 Hinv0.
  induction post as [|e post IH]; intros st Hl Hinv; simpl.
  - split; [exact Hl|]. split; [apply (proj2 Hinv Hl)|reflexivity].
  - inversion Hpost as [|? ? He Hrest]; subst.
    destruct (quiet_rec_step cmds e st Hinv Hl He) as [Hl' Ha'].
    rewrite <- Ha'. apply IH; [exact Hrest | exact Hl' | apply rec_step_inv, Hinv].
Qed.


(** Turning listening off and on again at once: the engine is still
    stopping, so its [start()] is refused, and the hook recovers by
    itself: when the engine ends, the restart timer starts it again. *)
Theorem toggle_off_on_recovers cmds st :
  isListening st = true -> shouldListen st = true -> engine st = Running ->
  let st2 := run_rec cmds [ListenToggle; ListenToggle] st in
  let st4 := run_rec cmds [EngineEnd; RestartFires] st2 in
  isListening st2 = true /\ engine st2 = Stopping /\
  isListening st4 = true /\ engine st4 = Running /\ autoStarts st4 = S (autoStarts st).
Proof.
  intros Hl Hs He. destruct st as [il sl tr lc en rp au fi]; cbn in *. subst.
  destruct rp;
  repeat split; reflexivity.
Qed.

Lemma toggle_off_on_recovers_witness :
  let st := run_rec AppCommands.voiceCommands [ListenStart] initial in
  isListening st = true /\ shouldListen st = true /\ engine st = Running /\
  (let st2 := run_rec AppCommands.voiceCommands [ListenToggle; ListenToggle] st in
   let st4 := run_rec AppCommands.voiceCommands [EngineEnd; RestartFires] st2 in
   isListening st2 = true /\ engine st2 = Stopping /\
   isListening st4 = true /\ engine st4 = Running /\ autoStarts st4 = S (autoStarts st)).
Proof.
  split; [reflexivity|]. split; [reflexivity|]. split; [reflexivity|].
  apply toggle_off_on_recovers; reflexivity.
Defined.

Lemma stop_listening_stays_off_witness :
  Forall (fun e => asks_to_listen e = false)
    [EngineEnd; RestartFires; Result 1000 (AppCommands.interim "next"); EngineError "network"] /\
  (let st0 := run_rec AppCommands.voiceCommands [ListenStart] initial in
   let st := run_rec AppCommands.voiceCommands
               (ListenStop :: [EngineEnd; RestartFires;
                               Result 1000 (AppCommands.interim "next");
                               EngineError "network"]) st0 in
   isListening st = false /\ engine st <> Running /\ autoStarts st = autoStarts st0).
Proof.
  split; [repeat constructor|].
  apply stop_listening_stays_off. repeat constructor.
Defined.

End ListeningProps.

Module TranscriptProps.
Import Recognition ListeningSpec StringFacts.

Lemma collect_split rs f i :
  collect rs f i = (f ++ joined (filter isFinal rs),
                    i ++ joined (filter (fun r => negb (isFinal r)) rs)).
Proof.
  revert f i; induction rs as [|r rs IH]; intros f i; simpl.
  - rewrite !str_app_nil_r. reflexivity.
  - destruct (isFinal r); simpl; rewrite IH; unfold joined; simpl;
      rewrite str_app_assoc; reflexivity.
Qed.

(** The transcript of a result event puts every final result before every
    interim one, whatever their order in the event: the final texts from
    [resultIndex] on, in order, then the interim texts, in order. *)
Theorem transcript_finals_first ev :
  let rs := skipn (resultIndex ev) (results ev) in
  currentTranscript ev =
  fold_right String.append "" (map transcript0 (filter isFinal rs)) ++
  fold_right String.append "" (map transcript0 (filter (fun r => negb (isFinal r)) rs)).
Proof.
  intros rs. unfold currentTranscript. fold rs. rewrite collect_split. reflexivity.
Qed.

(** A result event whose [resultIndex] is at or past the end of its
    results only clears the displayed transcript: no command runs, the
    engine and the throttle are untouched. *)
Theorem stale_result_index_clears cmds now ev st :
  (length (results ev) <= resultIndex ev)%nat ->
  onresult cmds now ev st =
  mkRec (isListening st) (shouldListen st) "" (lastCommandAt st) (engine st)
        (restartPending st) (autoStarts st) (fired st).
Proof.
  intros H. unfold onresult, currentTranscript.
  rewrite (skipn_all2 _ H). reflexivity.
Qed.

Lemma stale_result_index_clears_witness :
  (length (results (mkEvent 1 [mkResult true "next"])) <= resultIndex (mkEvent 1 [mkResult true "next"]))%nat /\
  onresult AppCommands.voiceCommands 5000 (mkEvent 1 [mkResult true "next"]) initial =
  mkRec (isListening initial) (shouldListen initial) "" (lastCommandAt initial)
        (engine initial) (restartPending initial) (autoStarts initial) (fired initial).
Proof.
  split; [simpl; lia|].
  apply stale_result_index_clears. simpl; lia.
Defined.

End TranscriptProps.

Module PlaybackProps.
Import Synthesis ExtraSpec.

Lemma nth_error_upd {A} n (f : A -> A) l i :
  nth_error (upd n f l) i =
  if Nat.eqb i n then option_map f (nth_error l i) else nth_error l i.
Proof.
  revert n i; induction l as [|x l IH]; intros n i.
  - destruct n, i; simpl; try destruct (_ =? _)%nat; reflexivity.
  - destruct n as [|n], i as [|i]; simpl; try reflexivity.
    apply IH.
Qed.

Lemma coherent_audios p q :
  audios q = audios p -> audioRef q = audioRef p ->
  (isSupported q = false -> utterance q = None) ->
  coherent p -> coherent (q).
Proof.
  intros Ha Hr Hu [H1 H2]. split; [|exact Hu].
  intros i a. rewrite Ha, Hr. apply H1.
Qed.

Lemma coherent_set_speaking b p : coherent p -> coherent (set_speaking b p).
Proof. intros H. apply (coherent_audios p); try reflexivity; [apply (proj2 H) | exact H]. Qed.

Lemma coherent_cancel p : coherent p -> coherent (cancel p).
Proof.
  intros H. unfold cancel. destruct (utterance p); [|exact H].
  split; [exact (proj1 H) | intros _; reflexivity].
Qed.

Lemma coherent_speakBrowser t cb p : coherent p -> coherent (speakBrowser t cb p).
Proof.
  intros H. unfold speakBrowser. destruct (isSupported p) eqn:Hs; simpl; [|exact H].
  apply (coherent_audios (cancel p)); try reflexivity.
  - unfold cancel; destruct (utterance p); simpl; rewrite Hs; discriminate.
  - apply coherent_cancel, H.
Qed.

Lemma coherent_set_audio_inactive id st pr p :
  (match st with APending | APlaying => false | _ => true end) = true ->
  coherent p -> coherent (set_audio id st pr p).
Proof.
  intros Hst [H1 H2]. split; [|exact H2].
  intros i a. simpl. rewrite nth_error_upd.
  destruct (Nat.eqb i id).
  - destruct (nth_error (audios p) i); simpl; [|discriminate].
    intros [= <-]. unfold active; simpl. destruct st; simpl in *; discriminate.
  - apply H1.
Qed.

Lemma coherent_set_audio_active id a st pr p :
  nth_error (audios p) id = Some a -> active a = true ->
  coherent p -> coherent (set_audio id st pr p).
Proof.
  intros Hn Ha [H1 H2]. split; [|exact H2].
  intros i b. simpl. rewrite nth_error_upd.
  destruct (Nat.eqb i id) eqn:Hi.
  - apply Nat.eqb_eq in Hi. subst i. intros _ _. apply (H1 id a Hn Ha).
  - apply H1.
Qed.

Lemma coherent_pause_audio id p : coherent p -> coherent (pause_audio id p).
Proof.
  intros H. unfold pause_audio.
  destruct (nth_error (audios p) id) as [a|] eqn:Hn; [|exact H].
  destruct (a_state a); try exact H.
  - apply (coherent_audios (set_audio id APaused false p)); try reflexivity.
    + intros Hs. apply (proj2 H), Hs.
    + apply coherent_set_audio_inactive; [reflexivity | exact H].
  - apply coherent_set_audio_inactive; [reflexivity | exact H].
Qed.

Lemma stop_silences p :
  coherent p ->
  coherent (stop p) /\ no_active (stop p) /\ utterance (stop p) = None /\
  isSpeaking (stop p) = false /\ audioRef (stop p) = None.
Proof.
  intros H.
  set (p1 := if isSupported p then cancel p else p).
  assert (Hc1 : coherent p1) by (unfold p1; destruct (isSupported p); [apply coherent_cancel|]; exact H).
  assert (Hu1 : utterance p1 = None).
  { unfold p1. destruct (isSupported p) eqn:Hs.
    - unfold cancel. destruct (utterance p) eqn:E; [reflexivity | exact E].
    - apply (proj2 H), Hs. }
  unfold stop. fold p1.
  destruct (audioRef p1) as [id|] eqn:Hr.
  - assert (Hc2 : coherent (pause_audio id p1)) by (apply coherent_pause_audio, Hc1).
    assert (Hu2 : utterance (pause_audio id p1) = None).
    { unfold pause_audio. destruct (nth_error (audios p1) id); [|exact Hu1].
      destruct (a_state a); exact Hu1. }
    assert (Hna : no_active (pause_audio id p1)).
    { intros i a Hn.
      destruct (active a) eqn:Ha; [|reflexivity].
      pose proof (proj1 Hc2 i a Hn Ha) as Hri.
      assert (Hr2 : audioRef (pause_audio id p1) = Some id).
      { unfold pause_audio. destruct (nth_error (audios p1) id); [|exact Hr].
        destruct (a_state a0); exact Hr. }
      rewrite Hr2 in Hri. injection Hri as <-.
      unfold pause_audio in Hn. destruct (nth_error (audios p1) id) as [b|] eqn:Hb.
      - destruct (a_state b) eqn:Hsb; simpl in Hn;
          try (rewrite nth_error_upd, Nat.eqb_refl, Hb in Hn; simpl in Hn;
               injection Hn as <-; discriminate Ha);
          rewrite Hn in Hb; injection Hb as ->; unfold active in Ha; rewrite Hsb in Ha;
          discriminate.
      - rewrite Hn in Hb; discriminate. }
    repeat split.
    + intros i a Hn Ha. simpl in Hn. rewrite (Hna i a Hn) in Ha. discriminate.
    + intros _. exact Hu2.
    + exact Hna.
    + exact Hu2.
  - assert (Hna : no_active p1).
    { intros i a Hn. destruct (active a) eqn:Ha; [|reflexivity].
      rewrite (proj1 Hc1 i a Hn Ha) in Hr. discriminate. }
    repeat split.
    + intros i a Hn Ha. simpl in Hn. rewrite (Hna i a Hn) in Ha. discriminate.
    + intros _. exact Hu1.
    + exact Hna.
    + exact Hu1.
    + exact Hr.
Qed.

Lemma coherent_speak t cb u p : coherent p -> coherent (speak t cb u p).
Proof.
  intros H. destruct (stop_silences p H) as (Hc & Hna & Hu & _ & _).
  unfold speak. revert Hc Hna Hu. generalize (stop p) as q. intros q Hc Hna Hu.
  destruct (truthy u); [|apply coherent_speakBrowser, Hc].
  split; simpl; [|intros _; exact Hu].
  intros i a Hn Ha.
  destruct (Nat.lt_ge_cases i (length (audios q))) as [Hi|Hi].
  - rewrite nth_error_app1 in Hn by exact Hi.
    rewrite (Hna i a Hn) in Ha. discriminate.
  - rewrite nth_error_app2 in Hn by exact Hi.
    destruct (i - length (audios q)) eqn:Hd; simpl in Hn.
    + f_equal. lia.
    + destruct n; discriminate.
Qed.

Lemma coherent_drop_play_event id p : coherent p -> coherent (drop_play_event id p).
Proof. intros H. split; [exact (proj1 H) | exact (proj2 H)]. Qed.

Lemma coherent_step e p : coherent p -> coherent (fst (step e p)).
Proof.
  intros H. destruct e as [| | |id|id|id|id|]; simpl.
  - destruct (utterance p) as [u|] eqn:Hu; [|exact H].
    destruct (u_started u); [exact H|]. simpl.
    apply coherent_set_speaking. split; [exact (proj1 H)|].
    simpl. intros Hs. rewrite (proj2 H Hs) in Hu. discriminate.
  - destruct (utterance p) as [u|] eqn:Hu; [|exact H].
    destruct (u_started u); [|exact H]. simpl.
    apply coherent_set_speaking. split; [exact (proj1 H)|]. intros _; reflexivity.
  - destruct (utterance p) as [u|] eqn:Hu; [|exact H]. simpl.
    apply coherent_set_speaking. split; [exact (proj1 H)|]. intros _; reflexivity.
  - destruct (nth_error (audios p) id) as [a|] eqn:Hn; [|exact H].
    destruct (a_state a) eqn:Hs; try exact H. simpl.
    apply (coherent_set_audio_active id a); [exact Hn| |exact H].
    unfold active; rewrite Hs; reflexivity.
  - destruct (nth_error (audios p) id) as [a|] eqn:Hn; [|exact H].
    destruct (a_state a) eqn:Hs; try exact H. simpl.
    apply coherent_set_speaking. apply coherent_set_audio_inactive; [reflexivity|exact H].
  - destruct (nth_error (audios p) id) as [a|] eqn:Hn; [|exact H].
    destruct (_ && _); [|exact H]. simpl.
    apply coherent_speakBrowser, coherent_drop_play_event,
      coherent_set_audio_inactive; [reflexivity|exact H].
  - destruct (nth_error (audios p) id) as [a|] eqn:Hn; [|exact H].
    destruct (live (a_state a)); [|exact H].
    destruct (a_playPromise a); simpl;
      repeat apply coherent_speakBrowser; apply coherent_set_audio_inactive;
      solve [reflexivity|exact H].
  - destruct (tasks p) as [|[id|id] rest]; [exact H| |].
    { apply coherent_set_speaking. split; [exact (proj1 H) | exact (proj2 H)]. }
    assert (Hc : coherent (mkPlayer (isSupported p) (isSpeaking p) (utterance p)
                                    (audios p) (audioRef p) rest))
      by (split; [exact (proj1 H) | exact (proj2 H)]).
    destruct (nth_error (audios p) id); simpl; [apply coherent_speakBrowser|]; exact Hc.
Qed.

Lemma coherent_act a p : coherent p -> coherent (fst (act a p)).
Proof.
  destruct a; simpl; [apply coherent_speak|apply stop_silences|apply coherent_step].
Qed.

Lemma coherent_exec acts p : coherent p -> coherent (fst (exec acts p)).
Proof.
  revert p; induction acts as [|a acts IH]; intros p H; simpl; [exact H|].
  pose proof (coherent_act a p H) as H1.
  destruct (act a p) as [p1 f1]. simpl in H1.
  pose proof (IH p1 H1) as H2. destruct (exec acts p1) as [p2 f2]. exact H2.
Qed.

Lemma coherent_initial sup : coherent (initial sup).
Proof. split; [intros i a Hn; destruct i; discriminate | intros _; reflexivity]. Qed.

(** Whatever calls of [speak] and [stop] and browser events happen, an
    Audio element that is loading or playing is always the one [audioRef]
    holds: at most one element plays at a time, and [stop] reaches it. *)
Theorem one_live_audio sup acts i a :
  let p := fst (exec acts (initial sup)) in
  nth_error (audios p) i = Some a -> active a = true -> audioRef p = Some i.
Proof. apply (coherent_exec acts (initial sup) (coherent_initial sup)). Qed.


Lemma one_live_audio_witness :
  let p := fst (exec [CallSpeak "A" (Some 0%nat) (Some "/a.mp3");
                      CallSpeak "B" (Some 1%nat) (Some "/b.mp3");
                      Event (AudioPlaying 1)] (initial true)) in
  nth_error (audios p) 1 = Some (mkAudio "B" (Some 1%nat) APlaying false) /\
  active (mkAudio "B" (Some 1%nat) APlaying false) = true /\ audioRef p = Some 1%nat.
Proof.
  intros p. split; [reflexivity|]. split; [reflexivity|].
  apply (one_live_audio true [CallSpeak "A" (Some 0%nat) (Some "/a.mp3");
                              CallSpeak "B" (Some 1%nat) (Some "/b.mp3");
                              Event (AudioPlaying 1)] 1 (mkAudio "B" (Some 1%nat) APlaying false));
    reflexivity.
Defined.

Lemma sounding_silent p :
  no_active p -> utterance p = None -> sounding p = [].
Proof.
  intros Hna Hu. unfold sounding. rewrite Hu. simpl.
  destruct (filter _ (audios p)) as [|a l] eqn:Hf; [reflexivity|].
  exfalso. assert (Hin : In a (filter (fun a => match a_state a with APlaying => true | _ => false end) (audios p)))
    by (rewrite Hf; left; reflexivity).
  apply filter_In in Hin. destruct Hin as [Hin Hp].
  apply In_nth_error in Hin. destruct Hin as [i Hi].
  pose proof (Hna i a Hi) as Ha. unfold active in Ha.
  destruct (a_state a); discriminate.
Qed.

(** In every run, [stop()] silences everything at once: nothing is played
    out, no element is loading or playing, no utterance is left and
    [isSpeaking] is false. *)
Theorem stop_silences_all sup acts :
  let p := stop (fst (exec acts (initial sup))) in
  sounding p = [] /\ utterance p = None /\ isSpeaking p = false /\
  (forall a, In a (audios p) -> active a = false).
Proof.
  intros p.
  destruct (stop_silences _ (coherent_exec acts (initial sup) (coherent_initial sup)))
    as (_ & Hna & Hu & Hs & _).
  fold p in Hna, Hu, Hs.
  split; [apply sounding_silent; assumption|].
  split; [exact Hu|]. split; [exact Hs|].
  intros a Hin. apply In_nth_error in Hin. destruct Hin as [i Hi]. exact (Hna i a Hi).
Qed.


Lemma quiet_no_cb p :
  SynthesisSpec.quiet p -> SynthesisSpec.holds p = [] ->
  forall es, snd (exec (map Event es) p) = [].
Proof.
  intros Hq Hh es. destruct (SynthesisClaims.quiet_exec es p Hq) as [_ [r Hr]].
  rewrite Hh in Hr. destruct (snd (exec (map Event es) p)); [reflexivity|discriminate].
Qed.

Lemma quiet_sounding p :
  SynthesisSpec.quiet p -> utterance p = None -> sounding p = [].
Proof.
  intros [_ Hf] Hu. apply sounding_silent; [|exact Hu].
  intros i a Hn. apply nth_error_In in Hn. rewrite Forall_forall in Hf.
  pose proof (Hf a Hn) as Hl. unfold active. unfold live in Hl.
  destruct (a_state a); try discriminate; reflexivity.
Qed.

(** A narration whose audio loads and plays to its end, started when no
    earlier playback can still act, sets [isSpeaking] with its "play"
    event, runs its [onEnd] exactly once, leaves [isSpeaking] false and
    nothing playing, and no later browser event runs any callback. *)
Theorem audio_narration_fires_once p text cb url :
  isSupported p = true -> SynthesisSpec.quiet p -> truthy url = true ->
  let id := length (audios p) in
  let r := exec [CallSpeak text (Some cb) url; Event RunTask; Event (AudioPlaying id);
                 Event (AudioEnded id)] p in
  isSpeaking (fst (exec [CallSpeak text (Some cb) url; Event RunTask] p)) = true /\
  snd r = [cb] /\ isSpeaking (fst r) = false /\ sounding (fst r) = [] /\
  forall es, snd (exec (map Event es) (fst r)) = [].
Proof.
  intros Hs Hq Hu id r. subst r id. simpl.
  rewrite (SynthesisClaims.speak_quiet p text (Some cb) url Hq Hs Hu). simpl.
  split; [reflexivity|].
  rewrite ListFacts.nth_error_last. simpl.
  unfold set_audio; simpl. rewrite ListFacts.upd_last. simpl.
  rewrite ListFacts.nth_error_last. simpl. rewrite ListFacts.upd_last. simpl.
  assert (Hq2 : SynthesisSpec.quiet
                  (mkPlayer true false None
                     (audios p ++ [mkAudio text (Some cb) AEnded false])
                     (Some (length (audios p))) [])).
  { split; [reflexivity|]. simpl. apply Forall_app.
    split; [exact (proj2 Hq)|]. repeat constructor. }
  split; [reflexivity|]. split; [reflexivity|].
  split; [apply quiet_sounding; [exact Hq2|reflexivity]|].
  apply quiet_no_cb; [exact Hq2|reflexivity].
Qed.

Lemma audio_narration_fires_once_witness :
  isSupported (initial true) = true /\ SynthesisSpec.quiet (initial true) /\
  truthy (Some "/audio/1.mp3") = true /\
  (let id := length (audios (initial true)) in
   let r := exec [CallSpeak "Step 1. Chop" (Some 0%nat) (Some "/audio/1.mp3");
                  Event RunTask; Event (AudioPlaying id); Event (AudioEnded id)]
                 (initial true) in
   isSpeaking (fst (exec [CallSpeak "Step 1. Chop" (Some 0%nat) (Some "/audio/1.mp3");
                          Event RunTask] (initial true))) = true /\
   snd r = [0%nat] /\ isSpeaking (fst r) = false /\ sounding (fst r) = [] /\
   forall es, snd (exec (map Event es) (fst r)) = []).
Proof.
  assert (Hq : SynthesisSpec.quiet (initial true)) by (split; [reflexivity|constructor]).
  split; [reflexivity|]. split; [exact Hq|]. split; [reflexivity|].
  apply audio_narration_fires_once; [reflexivity|exact Hq|reflexivity].
Defined.

(** The same for a narration by speech synthesis (no audio URL): started
    and ended by the engine, it runs its [onEnd] exactly once and nothing
    afterwards. *)
Theorem synth_narration_fires_once p text cb url :
  isSupported p = true -> SynthesisSpec.quiet p -> truthy url = false ->
  let r := exec [CallSpeak text (Some cb) url; Event SynthStart; Event SynthEnd] p in
  snd r = [cb] /\ isSpeaking (fst r) = false /\ sounding (fst r) = [] /\
  forall es, snd (exec (map Event es) (fst r)) = [].
Proof.
  intros Hs Hq Hu r. subst r. simpl. unfold speak.
  rewrite (SynthesisClaims.stop_quiet p Hq Hs), Hu. simpl.
  assert (Hq2 : SynthesisSpec.quiet (mkPlayer true false None (audios p) None [])).
  { split; [reflexivity|exact (proj2 Hq)]. }
  split; [reflexivity|]. split; [reflexivity|].
  split; [apply quiet_sounding; [exact Hq2|reflexivity]|].
  apply quiet_no_cb; [exact Hq2|reflexivity].
Qed.

Lemma synth_narration_fires_once_witness :
  isSupported (initial true) = true /\ SynthesisSpec.quiet (initial true) /\
  truthy None = false /\
  (let r := exec [CallSpeak "Step 1. Chop" (Some 0%nat) None; Event SynthStart;
                  Event SynthEnd] (initial true) in
   snd r = [0%nat] /\ isSpeaking (fst r) = false /\ sounding (fst r) = [] /\
   forall es, snd (exec (map Event es) (fst r)) = []).
Proof.
  assert (Hq : SynthesisSpec.quiet (initial true)) by (split; [reflexivity|constructor]).
  split; [reflexivity|]. split; [exact Hq|]. split; [reflexivity|].
  apply synth_narration_fires_once; [reflexivity|exact Hq|reflexivity].
Defined.

End PlaybackProps.

Module NavigatorFacts.
Import Synthesis Navigator ExtraSpec.

Lemma supported_cancel p : isSupported (cancel p) = isSupported p.
Proof. unfold cancel. destruct (utterance p); reflexivity. Qed.

Lemma supported_pause_audio id p : isSupported (pause_audio id p) = isSupported p.
Proof.
  unfold pause_audio. destruct (nth_error _ _) as [a|]; [destruct (a_state a)|]; reflexivity.
Qed.

Lemma supported_stop p : isSupported (stop p) = isSupported p.
Proof.
  unfold stop. simpl.
  destruct (audioRef (if isSupported p then cancel p else p)); simpl;
    rewrite ?supported_pause_audio; destruct (isSupported p) eqn:Hs;
    rewrite ?supported_cancel; auto.
Qed.

Lemma supported_speakBrowser t cb p : isSupported (speakBrowser t cb p) = isSupported p.
Proof.
  unfold speakBrowser. destruct (isSupported p) eqn:Hs; simpl;
    [rewrite supported_cancel|]; auto.
Qed.

Lemma supported_speak t cb u p : isSupported (speak t cb u p) = isSupported p.
Proof.
  unfold speak. destruct (truthy u); simpl;
    [|rewrite supported_speakBrowser]; apply supported_stop.
Qed.

Lemma supported_step e p : isSupported (fst (step e p)) = isSupported p.
Proof.
  destruct e as [| | |id|id|id|id|]; simpl.
  - destruct (utterance p) as [u|]; [destruct (u_started u)|]; reflexivity.
  - destruct (utterance p) as [u|]; [destruct (u_started u)|]; reflexivity.
  - destruct (utterance p); reflexivity.
  - destruct (nth_error _ _) as [a|]; [destruct (a_state a)|]; reflexivity.
  - destruct (nth_error _ _) as [a|]; [destruct (a_state a)|]; reflexivity.
  - destruct (nth_error _ _) as [a|]; [destruct (_ && _)|]; simpl;
      rewrite ?supported_speakBrowser; reflexivity.
  - destruct (nth_error _ _) as [a|]; [destruct (live _); [destruct (a_playPromise a)|]|];
      simpl; rewrite ?supported_speakBrowser; reflexivity.
  - destruct (tasks p) as [|[id|id] rest]; [reflexivity|reflexivity|].
    destruct (nth_error _ _); simpl; rewrite ?supported_speakBrowser; reflexivity.
Qed.

Lemma same_view_refl n : same_view n n.
Proof. repeat split. Qed.

Lemma autoplay_same_view n : same_view (autoplay_effect n) n /\ deps (autoplay_effect n) = deps n.
Proof.
  unfold autoplay_effect, same_view.
  destruct (isPlaying n && isSupported (player n)).
  - unfold readCurrentStep. cbn -[speak].
    destruct (nth_error (steps n) (currentStep n)); cbn -[speak];
      [rewrite supported_speak|]; repeat split.
  - destruct (negb (isPlaying n) && isSpeaking (player n)); cbn -[stop];
      [rewrite supported_stop|]; repeat split.
Qed.

Lemma commit_same_view n : same_view (commit n) n.
Proof.
  unfold commit. destruct (deps n) as [d|];
    [destruct (deps_eqb d (deps_of n)); [apply same_view_refl|]|];
    destruct (autoplay_same_view (with_deps (Some (deps_of n)) n)) as [H _]; exact H.
Qed.

Lemma deps_eqb_true d1 d2 : deps_eqb d1 d2 = true -> d1 = d2.
Proof.
  destruct d1 as [[[a1 b1] c1] e1], d2 as [[[a2 b2] c2] e2]. simpl.
  intros H. repeat rewrite andb_true_iff in H.
  destruct H as [[[Ha Hb] Hc] He].
  apply Nat.eqb_eq in Ha. apply Bool.eqb_prop in Hb, Hc, He. subst. reflexivity.
Qed.

Lemma deps_eqb_refl d : deps_eqb d d = true.
Proof.
  destruct d as [[[a b] c] e]. simpl. rewrite Nat.eqb_refl, !Bool.eqb_reflx. reflexivity.
Qed.

Lemma deps_of_same_view m n : same_view m n -> deps_of m = deps_of n.
Proof.
  intros (_ & H2 & H3 & H4 & _ & H6). unfold deps_of. rewrite H2, H3, H4, H6. reflexivity.
Qed.

Lemma commit_settled n : settled (commit n).
Proof.
  unfold settled, commit. destruct (deps n) as [d|] eqn:Hd.
  - destruct (deps_eqb d (deps_of n)) eqn:He.
    + apply deps_eqb_true in He. rewrite Hd, He. reflexivity.
    + destruct (autoplay_same_view (with_deps (Some (deps_of n)) n)) as [Hv Hdp].
      rewrite Hdp, (deps_of_same_view _ _ Hv). reflexivity.
  - destruct (autoplay_same_view (with_deps (Some (deps_of n)) n)) as [Hv Hdp].
    rewrite Hdp, (deps_of_same_view _ _ Hv). reflexivity.
Qed.

Lemma nav_step_settled e n : settled n -> settled (nav_step e n).
Proof.
  intros H. destruct e as [| | | |k|e|k]; simpl; try apply commit_settled.
  - destruct (_ =? _)%Z; [exact H|apply commit_settled].
  - destruct (_ =? _)%nat; [exact H|apply commit_settled].
  - destruct (step e (player n)). apply commit_settled.
  - destruct (nth_error (timers n) k); [apply commit_settled|exact H].
Qed.

Lemma run_nav_settled es n : settled n -> settled (run_nav es n).
Proof.
  revert n; induction es as [|e es IH]; intros n H; simpl; [exact H|].
  apply IH, nav_step_settled, H.
Qed.

(** On a settled state, a re-render whose dependencies did not change does
    nothing. *)
Lemma commit_settled_id n : settled n -> commit n = n.
Proof. unfold settled, commit. intros ->. rewrite deps_eqb_refl. reflexivity. Qed.

Lemma player_onComplete c n : player (onComplete c n) = player n.
Proof. unfold onComplete. destruct (_ && _); reflexivity. Qed.

Lemma run_callbacks_keep ks n :
  player (run_callbacks ks n) = player n /\ steps (run_callbacks ks n) = steps n /\
  currentStep (run_callbacks ks n) = currentStep n /\
  autoAdvance (run_callbacks ks n) = autoAdvance n /\
  deps (run_callbacks ks n) = deps n.
Proof.
  revert n; induction ks as [|k ks IH]; intros n; simpl; [repeat split|].
  destruct (IH (run_callback k n)) as (H1 & H2 & H3 & H4 & H5).
  rewrite H1, H2, H3, H4, H5. unfold run_callback.
  destruct (nth_error (closures n) k); [unfold onComplete; destruct (_ && _)|];
    repeat split.
Qed.

Section PlayerInvariant.
Variable P : Player -> Prop.
Hypothesis P_speak : forall t cb u p, P p -> P (speak t cb u p).
Hypothesis P_stop : forall p, P p -> P (stop p).
Hypothesis P_step : forall e p, P p -> P (fst (step e p)).

Lemma P_readCurrentStep cb n : P (player n) -> P (player (readCurrentStep cb n)).
Proof. unfold readCurrentStep. destruct (nth_error _ _); simpl; auto. Qed.

Lemma P_autoplay n : P (player n) -> P (player (autoplay_effect n)).
Proof.
  intros H. unfold autoplay_effect. destruct (_ && _).
  - apply P_readCurrentStep. exact H.
  - destruct (_ && _); simpl; auto.
Qed.

Lemma P_commit n : P (player n) -> P (player (commit n)).
Proof.
  intros H. unfold commit. destruct (deps n) as [d|];
    [destruct (deps_eqb _ _); [exact H|]|]; apply P_autoplay; exact H.
Qed.

Lemma P_goToNext_at c n : player (goToNext_at c n) = player n.
Proof. unfold goToNext_at. destruct (_ <? _)%Z; reflexivity. Qed.

Lemma P_goToPrev_at c n : player (goToPrev_at c n) = player n.
Proof. unfold goToPrev_at. destruct (_ <? _)%nat; reflexivity. Qed.

Lemma P_voice k n : P (player n) -> P (player (voice_action k n)).
Proof.
  intros H. destruct k as [|[|[|[|[|[|[|[|k]]]]]]]]; simpl;
    rewrite ?P_goToNext_at, ?P_goToPrev_at; simpl; auto.
  apply P_readCurrentStep, H.
Qed.

Lemma P_nav_step e n : P (player n) -> P (player (nav_step e n)).
Proof.
  intros H. destruct e as [| | | |k|e|k]; simpl.
  - destruct (_ =? _)%Z; [exact H|]. apply P_commit. rewrite P_goToNext_at. exact H.
  - destruct (_ =? _)%nat; [exact H|]. apply P_commit. rewrite P_goToPrev_at. exact H.
  - apply P_commit, H.
  - apply P_commit, H.
  - apply P_commit, P_voice, H.
  - pose proof (P_step e (player n) H) as He.
    destruct (step e (player n)) as [pl ks]. apply P_commit.
    rewrite (proj1 (run_callbacks_keep ks _)). exact He.
  - destruct (nth_error (timers n) k) as [t|]; [|exact H].
    apply P_commit. destruct (t_isPlaying t); [rewrite P_goToNext_at|]; exact H.
Qed.

Lemma P_run_nav es n : P (player n) -> P (player (run_nav es n)).
Proof.
  revert n; induction es as [|e es IH]; intros n H; simpl; [exact H|].
  apply IH, P_nav_step, H.
Qed.

Lemma P_mount ss auto sup : P (initial sup) -> P (player (mount ss auto sup)).
Proof. intros H. apply P_commit. exact H. Qed.

End PlayerInvariant.

Lemma coherent_run ss auto sup es :
  coherent (player (run_nav es (mount ss auto sup))).
Proof.
  apply P_run_nav; [exact PlaybackProps.coherent_speak
                   | intros p Hp; apply (PlaybackProps.stop_silences p Hp)
                   | exact PlaybackProps.coherent_step |].
  apply P_mount; [exact PlaybackProps.coherent_speak
                 | intros p Hp; apply (PlaybackProps.stop_silences p Hp)
                 | apply PlaybackProps.coherent_initial].
Qed.

Lemma settled_run ss auto sup es : settled (run_nav es (mount ss auto sup)).
Proof. apply run_nav_settled, commit_settled. Qed.

Lemma commit_idle n :
  isPlaying n = false -> isSpeaking (player n) = false -> player (commit n) = player n.
Proof.
  intros Hp Hs. unfold commit, autoplay_effect. simpl.
  destruct (deps n) as [d|]; [destruct (deps_eqb _ _); [reflexivity|]|];
    simpl; rewrite Hp, Hs; reflexivity.
Qed.

End NavigatorFacts.

Module NavigatorProps.
Import Synthesis Navigator NavigatorUI ExtraSpec NavigatorFacts.

(** The voice commands "next", "back" and "stop", given at any point of
    any session, leave nothing playing at once and auto-play off. *)
Theorem voice_stop_next_back_silence ss auto sup es :
  let n := run_nav es (mount ss auto sup) in
  (sounding (player (nav_step (Voice AppCommands.CMD_NEXT) n)) = [] /\
   isPlaying (nav_step (Voice AppCommands.CMD_NEXT) n) = false) /\
  (sounding (player (nav_step (Voice AppCommands.CMD_BACK) n)) = [] /\
   isPlaying (nav_step (Voice AppCommands.CMD_BACK) n) = false) /\
  (sounding (player (nav_step (Voice AppCommands.CMD_STOP) n)) = [] /\
   isPlaying (nav_step (Voice AppCommands.CMD_STOP) n) = false).
Proof.
  intros n.
  pose proof (coherent_run ss auto sup es) as Hc. fold n in Hc.
  destruct (PlaybackProps.stop_silences _ Hc) as (_ & Hna & Hu & Hs & _).
  assert (Hsil : sounding (stop (player n)) = [])
    by (apply PlaybackProps.sounding_silent; assumption).
  assert (Hk : forall m, player m = stop (player n) -> isPlaying m = false ->
                 sounding (player (commit m)) = [] /\ isPlaying (commit m) = false).
  { intros m Hm Hp. rewrite commit_idle; [|exact Hp|rewrite Hm; exact Hs].
    rewrite Hm. split; [exact Hsil|].
    destruct (commit_same_view m) as (_ & _ & _ & H & _). rewrite H. exact Hp. }
  simpl. split; [|split]; apply Hk.
  - rewrite P_goToNext_at. reflexivity.
  - unfold goToNext_at. destruct (_ <? _)%Z; reflexivity.
  - rewrite P_goToPrev_at. reflexivity.
  - unfold goToPrev_at. destruct (_ <? _)%nat; reflexivity.
  - reflexivity.
  - reflexivity.
Qed.

(** A step pill clicked while the player reports speech, for another step
    or during auto-play, moves the cursor there, ends auto-play and
    silences the narration. *)
Theorem pill_click_silences ss auto sup es index :
  let n := run_nav es (mount ss auto sup) in
  isSpeaking (player n) = true ->
  (index <> currentStep n \/ isPlaying n = true) ->
  let m := click_pill index n in
  currentStep m = index /\ isPlaying m = false /\ sounding (player m) = [].
Proof.
  intros n Hs Hd m.
  pose proof (coherent_run ss auto sup es) as Hc. fold n in Hc.
  pose proof (settled_run ss auto sup es) as Hst. fold n in Hst.
  destruct (PlaybackProps.stop_silences _ Hc) as (_ & Hna & Hu & _ & _).
  set (n1 := with_playing false (with_step index n)).
  assert (Hne : deps_eqb (deps_of n) (deps_of n1) = false).
  { unfold n1, deps_of, deps_eqb; cbn. destruct Hd as [Hd|Hd].
    - rewrite (proj2 (Nat.eqb_neq _ _) (not_eq_sym Hd)). reflexivity.
    - rewrite Hd. destruct (Nat.eqb _ _); reflexivity. }
  subst m. unfold click_pill. fold n1.
  unfold commit. unfold settled in Hst.
  replace (deps n1) with (Some (deps_of n)) by (unfold n1; simpl; rewrite Hst; reflexivity).
  rewrite Hne. unfold autoplay_effect. simpl. rewrite Hs. simpl.
  split; [reflexivity|]. split; [reflexivity|].
  apply PlaybackProps.sounding_silent; assumption.
Qed.

Lemma pill_click_silences_witness :
  let n := run_nav [ClickPlay; Browser SynthStart] (mount [chop; fry] true true) in
  isSpeaking (player n) = true /\ (1%nat <> currentStep n \/ isPlaying n = true) /\
  (let m := click_pill 1 n in
   currentStep m = 1%nat /\ isPlaying m = false /\ sounding (player m) = []).
Proof.
  split; [reflexivity|]. split; [right; reflexivity|].
  apply (pill_click_silences [chop; fry] true true [ClickPlay; Browser SynthStart] 1);
    [reflexivity | right; reflexivity].
Defined.

Lemma goToNext_at_step c n :
  currentStep (goToNext_at c n) =
  if (Z.of_nat c <? lastIndex n)%Z then S (currentStep n) else currentStep n.
Proof. unfold goToNext_at. destruct (_ <? _)%Z; reflexivity. Qed.

Lemma goToNext_at_steps c n : steps (goToNext_at c n) = steps n.
Proof. unfold goToNext_at. destruct (_ <? _)%Z; reflexivity. Qed.

Lemma goToPrev_at_step c n :
  currentStep (goToPrev_at c n) = if (0 <? c)%nat then currentStep n - 1 else currentStep n.
Proof. unfold goToPrev_at. destruct (_ <? _)%nat; reflexivity. Qed.

Lemma goToPrev_at_steps c n : steps (goToPrev_at c n) = steps n.
Proof. unfold goToPrev_at. destruct (_ <? _)%nat; reflexivity. Qed.

Lemma next_in_range m c len :
  (c < len)%nat -> currentStep m = c ->
  lastIndex m = (Z.of_nat len - 1)%Z ->
  (currentStep (goToNext_at c m) < len)%nat.
Proof.
  intros Hc Hm Hl. rewrite goToNext_at_step, Hl.
  destruct (Z.of_nat c <? Z.of_nat len - 1)%Z eqn:E; [apply Z.ltb_lt in E|]; lia.
Qed.

Lemma prev_in_range m c len :
  (currentStep m < len)%nat -> (currentStep (goToPrev_at c m) < len)%nat.
Proof. intros H. rewrite goToPrev_at_step. destruct (0 <? c)%nat; lia. Qed.

Lemma voice_range k n :
  (currentStep n < length (steps n))%nat ->
  (currentStep (voice_action k n) < length (steps n))%nat /\
  steps (voice_action k n) = steps n.
Proof.
  intros H. destruct k as [|[|[|[|[|[|[|[|k]]]]]]]]; simpl; try (split; [exact H|reflexivity]).
  - split; [|rewrite goToNext_at_steps; reflexivity].
    rewrite goToNext_at_step. unfold lastIndex.
    cbn [currentStep steps stopSpeaking with_playing with_player].
    destruct (_ <? _)%Z eqn:E; [apply Z.ltb_lt in E|]; lia.
  - split; [|rewrite goToPrev_at_steps; reflexivity].
    rewrite goToPrev_at_step.
    cbn [currentStep steps stopSpeaking with_playing with_player].
    destruct (_ <? _)%nat; lia.
  - unfold readCurrentStep. destruct (nth_error _ _); split; assumption || reflexivity.
Qed.

Lemma nav_step_range e n :
  is_timer e = false -> (currentStep n < length (steps n))%nat ->
  (currentStep (nav_step e n) < length (steps n))%nat /\ steps (nav_step e n) = steps n.
Proof.
  intros Ht H.
  assert (Hc : forall m, (currentStep m < length (steps n))%nat -> steps m = steps n ->
                 (currentStep (commit m) < length (steps n))%nat /\ steps (commit m) = steps n).
  { intros m H1 H2. destruct (commit_same_view m) as (S1 & S2 & _).
    rewrite S1, S2. split; assumption. }
  destruct e as [| | | |k|e|k]; simpl; try discriminate Ht.
  - destruct (_ =? _)%Z; [split; [exact H|reflexivity]|]. apply Hc.
    + rewrite goToNext_at_step. unfold lastIndex. cbn [currentStep steps with_playing].
      destruct (_ <? _)%Z eqn:E; [apply Z.ltb_lt in E|]; lia.
    + rewrite goToNext_at_steps. reflexivity.
  - destruct (_ =? _)%nat; [split; [exact H|reflexivity]|]. apply Hc.
    + rewrite goToPrev_at_step. cbn [currentStep steps with_playing].
      destruct (_ <? _)%nat; lia.
    + rewrite goToPrev_at_steps. reflexivity.
  - apply Hc; [exact H|reflexivity].
  - apply Hc; [exact H|reflexivity].
  - destruct (voice_range k n H) as [H1 H2]. apply Hc; assumption.
  - destruct (step e (player n)) as [pl ks].
    destruct (run_callbacks_keep ks (with_player pl n)) as (_ & H2 & H3 & _).
    apply Hc; [rewrite H3; exact H | rewrite H2; reflexivity].
Qed.

(** Without the auto-advance timer, no sequence of button presses, voice
    commands and player events moves the cursor outside the recipe. *)
Theorem cursor_in_range_without_timer es n :
  (currentStep n < length (steps n))%nat ->
  Forall (fun e => is_timer e = false) es ->
  (currentStep (run_nav es n) < length (steps n))%nat /\ steps (run_nav es n) = steps n.
Proof.
  revert n; induction es as [|e es IH]; intros n H Hes; simpl; [split; [exact H|reflexivity]|].
  inversion Hes as [|? ? He Hrest]; subst.
  destruct (nav_step_range e n He H) as [H1 H2].
  rewrite <- H2 in H1 |- *. apply IH; assumption.
Qed.

Lemma cursor_in_range_without_timer_witness :
  (currentStep (mount [chop; fry] true true) < length (steps (mount [chop; fry] true true)))%nat /\
  Forall (fun e => is_timer e = false)
    [ClickNext; Voice AppCommands.CMD_NEXT; ClickPlay; Browser SynthStart;
     Browser SynthEnd; ClickPrev] /\
  (currentStep (run_nav [ClickNext; Voice AppCommands.CMD_NEXT; ClickPlay;
                         Browser SynthStart; Browser SynthEnd; ClickPrev]
                        (mount [chop; fry] true true))
     < length (steps (mount [chop; fry] true true)))%nat /\
  steps (run_nav [ClickNext; Voice AppCommands.CMD_NEXT; ClickPlay;
                  Browser SynthStart; Browser SynthEnd; ClickPrev]
                 (mount [chop; fry] true true)) = steps (mount [chop; fry] true true).
Proof.
  split; [simpl; lia|]. split; [repeat constructor|].
  apply cursor_in_range_without_timer; [simpl; lia|repeat constructor].
Defined.

Lemma timer_fire_next n k t :
  nth_error (timers n) k = Some t -> t_isPlaying t = true ->
  (Z.of_nat (t_currentStep t) < lastIndex n)%Z ->
  let m := nav_step (TimerFires k) n in
  currentStep m = S (currentStep n) /\
  (currentStep n = (length (steps n) - 1)%nat -> nth_error (steps m) (currentStep m) = None).
Proof.
  intros Hk Ht Hl m. subst m. simpl. rewrite Hk, Ht.
  destruct (commit_same_view (goToNext_at (t_currentStep t)
              (with_timers (remove_nth k (timers n)) n))) as (S1 & S2 & _).
  rewrite S1, S2, goToNext_at_step, goToNext_at_steps. simpl.
  unfold lastIndex in *. simpl. apply Z.ltb_lt in Hl. unfold lastIndex in Hl. rewrite Hl.
  split; [reflexivity|]. intros Hc. apply nth_error_None. simpl. apply Z.ltb_lt in Hl. lia.
Qed.

(** A pending auto-advance timer created while playing moves the cursor one
    step on from where it is when it fires, not from the step it was set
    for: a manual move in between is added to, and from the last step the
    cursor leaves the recipe. *)
Theorem timer_advances_from_current n k t :
  nth_error (timers n) k = Some t -> t_isPlaying t = true ->
  (Z.of_nat (t_currentStep t) < lastIndex n)%Z ->
  let m := nav_step (TimerFires k) n in
  currentStep m = S (currentStep n) /\
  (currentStep n = (length (steps n) - 1)%nat -> nth_error (steps m) (currentStep m) = None).
Proof. exact (timer_fire_next n k t). Qed.

Lemma timer_advances_from_current_witness :
  let n := run_nav [ClickPlay; Browser SynthStart; Browser SynthEnd; ClickNext]
                   (mount [chop; fry] true true) in
  nth_error (timers n) 0 = Some (mkTimer true 0) /\ t_isPlaying (mkTimer true 0) = true /\
  (Z.of_nat (t_currentStep (mkTimer true 0)) < lastIndex n)%Z /\
  (let m := nav_step (TimerFires 0) n in
   currentStep m = S (currentStep n) /\
   (currentStep n = (length (steps n) - 1)%nat -> nth_error (steps m) (currentStep m) = None)).
Proof.
  split; [reflexivity|]. split; [reflexivity|]. split; [reflexivity|].
  apply (timer_advances_from_current _ 0 (mkTimer true 0)); reflexivity.
Defined.

(** Restart clears the completed steps, puts the cursor on the first step
    and ends auto-play, but a pending auto-advance timer survives it: when
    it fires, the cursor moves to the second step. *)
Theorem reset_keeps_pending_timer n completed k t :
  nth_error (timers n) k = Some t -> t_isPlaying t = true ->
  (Z.of_nat (t_currentStep t) < lastIndex n)%Z ->
  let r := resetRecipe n completed in
  snd r = [] /\ currentStep (fst r) = 0%nat /\ isPlaying (fst r) = false /\
  timers (fst r) = timers n /\
  currentStep (nav_step (TimerFires k) (fst r)) = 1%nat.
Proof.
  intros Hk Ht Hl r. subst r. unfold resetRecipe. cbn [fst snd].
  destruct (commit_same_view (with_playing false (with_step 0 n)))
    as (S1 & S2 & S3 & S4 & S5 & _).
  set (m := commit (with_playing false (with_step 0 n))) in *.
  cbn [steps currentStep autoAdvance isPlaying timers with_playing with_step]
    in S1, S2, S3, S4, S5.
  split; [reflexivity|]. split; [exact S2|]. split; [exact S4|]. split; [exact S5|].
  replace 1%nat with (S (currentStep m)) by (rewrite S2; reflexivity).
  apply (proj1 (timer_fire_next m k t ltac:(rewrite S5; exact Hk) Ht
                  ltac:(unfold lastIndex; rewrite S1; exact Hl))).
Qed.

Lemma reset_keeps_pending_timer_witness :
  let n := run_nav [ClickPlay; Browser SynthStart; Browser SynthEnd]
                   (mount [chop; fry] true true) in
  nth_error (timers n) 0 = Some (mkTimer true 0) /\ t_isPlaying (mkTimer true 0) = true /\
  (Z.of_nat (t_currentStep (mkTimer true 0)) < lastIndex n)%Z /\
  (let r := resetRecipe n [0%nat] in
   snd r = [] /\ currentStep (fst r) = 0%nat /\ isPlaying (fst r) = false /\
   timers (fst r) = timers n /\
   currentStep (nav_step (TimerFires 0) (fst r)) = 1%nat).
Proof.
  split; [reflexivity|]. split; [reflexivity|]. split; [reflexivity|].
  apply (reset_keeps_pending_timer _ [0%nat] 0 (mkTimer true 0)); reflexivity.
Defined.

Lemma run_nav_app es1 es2 n : run_nav (es1 ++ es2) n = run_nav es2 (run_nav es1 n).
Proof. revert n; induction es1 as [|e es1 IH]; intros n; simpl; [reflexivity|apply IH]. Qed.

Lemma prefix_nil l : SynthesisSpec.is_prefix l [] -> l = [].
Proof. intros [r Hr]. apply app_eq_nil in Hr. apply Hr. Qed.

Lemma browser_events_idle bs n :
  SynthesisSpec.quiet (player n) -> SynthesisSpec.holds (player n) = [] -> settled n ->
  let m := run_nav (map Browser bs) n in
  isPlaying m = isPlaying n /\ currentStep m = currentStep n /\ timers m = timers n.
Proof.
  revert n; induction bs as [|e bs IH]; intros n Hq Hh Hs; simpl; [repeat split|].
  destruct (SynthesisClaims.quiet_step e (player n) Hq) as [Hq1 Hp].
  rewrite Hh in Hp. apply prefix_nil, app_eq_nil in Hp. destruct Hp as [Hk Hh1].
  pose proof (supported_step e (player n)) as Hsup.
  destruct (step e (player n)) as [pl ks]. simpl in Hq1, Hk, Hh1, Hsup. subst ks.
  simpl. rewrite commit_settled_id.
  - destruct (IH (with_player pl n) Hq1 Hh1) as (H1 & H2 & H3).
    + unfold settled, deps_of in *. simpl. rewrite Hs, Hsup. reflexivity.
    + rewrite H1, H2, H3. repeat split.
  - unfold settled, deps_of in *. simpl. rewrite Hs, Hsup. reflexivity.
Qed.

(** When speech synthesis fails on a step without audio (the utterance's
    error event after it started), no completion callback runs: the
    navigator stays in play mode on the first step with no timer pending,
    whatever further events the speech player delivers. *)
Theorem synth_error_stalls_autoplay s0 rest auto bs :
  truthy (audio_url s0) = false ->
  let n := run_nav ([ClickPlay; Browser SynthStart; Browser SynthError] ++ map Browser bs)
                   (mount (s0 :: rest) auto true) in
  isPlaying n = true /\ currentStep n = 0%nat /\ timers n = [].
Proof.
  intros Hu n. subst n. rewrite run_nav_app.
  pose proof (settled_run (s0 :: rest) auto true [ClickPlay; Browser SynthStart; Browser SynthError])
    as Hs.
  revert Hs.
  set (n0 := run_nav [ClickPlay; Browser SynthStart; Browser SynthError]
                     (mount (s0 :: rest) auto true)).
  assert (H0 : isPlaying n0 = true /\ currentStep n0 = 0%nat /\ timers n0 = [] /\
               SynthesisSpec.quiet (player n0) /\ SynthesisSpec.holds (player n0) = []).
  { destruct s0 as [ins dur tip url]. cbn in Hu.
    destruct url as [u|]; [apply negb_false_iff, String.eqb_eq in Hu; subst u|];
      destruct auto; unfold n0; cbn;
      repeat split; constructor. }
  intros Hs. destruct H0 as (H1 & H2 & H3 & H4 & H5).
  destruct (browser_events_idle bs n0 H4 H5 Hs) as (G1 & G2 & G3).
  rewrite G1, G2, G3. auto.
Qed.

Lemma synth_error_stalls_autoplay_witness :
  truthy (audio_url fry) = false /\
  (let n := run_nav ([ClickPlay; Browser SynthStart; Browser SynthError] ++
                     map Browser [SynthEnd; RunTask; AudioEnded 0])
                    (mount [fry; chop] true true) in
   isPlaying n = true /\ currentStep n = 0%nat /\ timers n = []).
Proof.
  split; [reflexivity|].
  apply (synth_error_stalls_autoplay fry [chop] true [SynthEnd; RunTask; AudioEnded 0]).
  reflexivity.
Defined.

Lemma getItem_setItem_other k k' v s :
  k <> k' -> getItem k (setItem k' v s) = getItem k s.
Proof.
  intros Hne. unfold setItem. simpl.
  destruct (String.eqb_spec k k') as [E|_]; [contradiction|].
  induction s as [|[k1 v1] s IH]; simpl; [reflexivity|].
  destruct (String.eqb_spec k' k1) as [E|E]; simpl.
  - subst k1. destruct (String.eqb_spec k k') as [E'|_]; [contradiction|]. exact IH.
  - destruct (String.eqb k k1); [reflexivity|exact IH].
Qed.

Lemma getItem_fold_other k ws s :
  Forall (fun kv => fst kv <> k) ws ->
  getItem k (fold_left (fun s kv => setItem (fst kv) (snd kv) s) ws s) = getItem k s.
Proof.
  intros Hws. revert s.
  induction Hws as [|[k1 v1] ws Hk Hws IH]; intros s; cbn [fold_left fst snd]; [reflexivity|].
  rewrite IH. apply getItem_setItem_other. simpl in Hk. auto.
Qed.

(** The auto-play preference survives a reload: the value persisted by the
    navigator, followed by writes under other keys, is what the next
    navigator starts with. *)
Theorem autoplay_preference_round_trip n store ws ss sup :
  Forall (fun kv => fst kv <> AUTO_PLAY_KEY) ws ->
  let store' := fold_left (fun s kv => setItem (fst kv) (snd kv) s) ws
                          (persist_autoAdvance n store) in
  autoAdvance (mount ss (load_autoAdvance store') sup) = autoAdvance n.
Proof.
  intros Hws store'. unfold mount.
  destruct (commit_same_view (mkNav ss 0 (load_autoAdvance store') false (initial sup) [] [] None))
    as (_ & _ & H & _). rewrite H. cbn [autoAdvance].
  unfold load_autoAdvance, store'. rewrite getItem_fold_other by exact Hws.
  unfold persist_autoAdvance, setItem. cbn [getItem].
  rewrite String.eqb_refl. destruct (autoAdvance n); reflexivity.
Qed.

Lemma autoplay_preference_round_trip_witness :
  Forall (fun kv => fst kv <> AUTO_PLAY_KEY) [("foodly:theme", "dark"); ("token", "x")] /\
  autoAdvance (mount [chop; fry]
    (load_autoAdvance (fold_left (fun s kv => setItem (fst kv) (snd kv) s)
                         [("foodly:theme", "dark"); ("token", "x")]
                         (persist_autoAdvance (mount [chop] true true) [])))
    true) = autoAdvance (mount [chop] true true).
Proof.
  split; [repeat constructor; simpl; discriminate|].
  apply (autoplay_preference_round_trip (mount [chop] true true) []
           [("foodly:theme", "dark"); ("token", "x")] [chop; fry] true).
  repeat constructor; simpl; discriminate.
Defined.

Lemma has_In s i : has s i = true <-> In i s.
Proof.
  unfold has. rewrite existsb_exists. split.
  - intros (x & Hx & E). apply Nat.eqb_eq in E. subst. exact Hx.
  - intros H. exists i. split; [exact H|apply Nat.eqb_refl].
Qed.

Lemma has_delete s i j : has (set_delete i s) j = has s j && negb (Nat.eqb j i).
Proof.
  induction s as [|x s IH]; [reflexivity|].
  unfold set_delete in *. cbn [filter]. unfold has in *.
  destruct (Nat.eqb_spec x i) as [->|Hx]; cbn [negb existsb].
  - rewrite IH. destruct (Nat.eqb j i), (existsb (Nat.eqb j) s); reflexivity.
  - cbn [existsb]. rewrite IH.
    destruct (Nat.eqb_spec j x) as [->|Hjx]; cbn [orb].
    + rewrite (proj2 (Nat.eqb_neq x i) Hx). reflexivity.
    + reflexivity.
Qed.

Lemma has_app s t j : has (s ++ t) j = has s j || has t j.
Proof. unfold has. apply existsb_app. Qed.

Lemma has_toggle i prev j :
  has (toggleStepComplete i prev) j =
  if Nat.eqb j i then negb (has prev i) else has prev j.
Proof.
  unfold toggleStepComplete, set_add.
  destruct (has prev i) eqn:Hi.
  - rewrite has_delete. destruct (Nat.eqb j i); cbn [negb];
      [apply andb_false_r|apply andb_true_r].
  - rewrite has_app. cbn [negb]. unfold has at 2. cbn [existsb].
    destruct (Nat.eqb_spec j i) as [->|E].
    + rewrite Hi. reflexivity.
    + apply orb_false_r.
Qed.

Lemma NoDup_filter' (f : nat -> bool) l : NoDup l -> NoDup (filter f l).
Proof.
  induction 1 as [|x l Hx Hl IH]; simpl; [constructor|].
  destruct (f x); [|exact IH]. constructor; [|exact IH].
  intros Hin. apply filter_In in Hin. apply Hx, Hin.
Qed.

(** Ticking a step off flips exactly that step: the set of completed steps
    gains it when absent and loses it when present, no other step changes,
    no step is listed twice, and ticking it twice gives back the same set. *)
Theorem toggle_step_flips_one i prev :
  NoDup prev ->
  NoDup (toggleStepComplete i prev) /\
  has (toggleStepComplete i prev) i = negb (has prev i) /\
  (forall j, j <> i -> has (toggleStepComplete i prev) j = has prev j) /\
  (forall j, has (toggleStepComplete i (toggleStepComplete i prev)) j = has prev j).
Proof.
  intros Hnd. split; [|split; [|split]].
  - unfold toggleStepComplete, set_add, set_delete.
    destruct (has prev i) eqn:Hi; [apply NoDup_filter', Hnd|].
    apply NoDup_app; [exact Hnd|constructor; [intros []|constructor]|].
    intros x Hx [<-|[]]. apply has_In in Hx. congruence.
  - rewrite has_toggle, Nat.eqb_refl. reflexivity.
  - intros j Hj. rewrite has_toggle. rewrite (proj2 (Nat.eqb_neq j i) Hj). reflexivity.
  - intros j. rewrite !has_toggle. destruct (Nat.eqb_spec j i) as [->|_]; [|reflexivity].
    rewrite Nat.eqb_refl. apply negb_involutive.
Qed.

Lemma toggle_step_flips_one_witness :
  NoDup [2; 0]%nat /\
  NoDup (toggleStepComplete 1 [2; 0]) /\
  has (toggleStepComplete 1 [2; 0]) 1 = negb (has [2; 0] 1) /\
  (forall j, j <> 1%nat -> has (toggleStepComplete 1 [2; 0]) j = has [2; 0] j) /\
  (forall j, has (toggleStepComplete 1 (toggleStepComplete 1 [2; 0])) j = has [2; 0] j).
Proof.
  assert (H : NoDup [2; 0]%nat) by (repeat constructor; simpl; lia).
  split; [exact H|]. apply toggle_step_flips_one. exact H.
Defined.

End NavigatorProps.

Module CookingProps.
Import Synthesis Navigator Cooking CookingSpec StringFacts.

Lemma augmentedSteps_shape r :
  exists pre post,
    augmentedSteps r = (pre ++ r_steps r ++ post)%list /\
    length pre = (if has_intro r then 1 else 0)%nat /\
    length post = (if has_outro r then 1 else 0)%nat /\
    (forall s, In s pre ->
       s = mkRStep 0 (or_else (intro_text r)
                        (or_else (description r) "Welcome to this recipe! Let's get started."))
                   None None (intro_audio_url r)) /\
    (forall s, In s post ->
       s = mkRStep (length (r_steps r) + 1)
                   (or_else (outro_text r) "Serve hot and enjoy your meal!")
                   None None (outro_audio_url r)).
Proof.
  unfold augmentedSteps.
  set (I := mkRStep 0 _ None None (intro_audio_url r)).
  set (O := mkRStep (length (r_steps r) + 1) _ None None (outro_audio_url r)).
  exists (if has_intro r then [I] else []), (if has_outro r then [O] else []).
  split; [|split; [destruct (has_intro r); reflexivity|
          split; [destruct (has_outro r); reflexivity|split]]].
  - destruct (has_intro r), (has_outro r); cbv zeta; cbn [app];
      match goal with |- context [(0 <? ?l)%nat] => destruct (0 <? l)%nat eqn:E end;
      rewrite ?app_nil_r; try reflexivity;
      try (apply Nat.ltb_ge in E; rewrite ?length_app in E; simpl in E; lia).
  - intros s Hs. destruct (has_intro r); simpl in Hs; [|contradiction].
    destruct Hs as [<-|[]]. reflexivity.
  - intros s Hs. destruct (has_outro r); simpl in Hs; [|contradiction].
    destruct Hs as [<-|[]]. reflexivity.
Qed.

Lemma augmented_index r :
  length (augmentedSteps r) =
    (extra (has_intro r) + length (r_steps r) + extra (has_outro r))%nat /\
  (forall i s, nth_error (r_steps r) i = Some s ->
     nth_error (augmentedSteps r) (extra (has_intro r) + i) = Some s).
Proof.
  destruct (augmentedSteps_shape r) as (pre & post & E & Hpre & Hpost & _ & _).
  rewrite E. unfold extra. rewrite <- Hpre, <- Hpost. split.
  - rewrite !length_app. lia.
  - intros i s Hi. rewrite nth_error_app2 by lia.
    replace (length pre + i - length pre)%nat with i by lia.
    rewrite nth_error_app1; [exact Hi|]. apply nth_error_Some. congruence.
Qed.

(** [augmentedSteps] keeps the recipe's own steps in order, between at
    most one added introduction before them and at most one added closing
    step after them: the list is one step longer for each, and recipe step
    [i] sits at index [i], shifted by one when there is an introduction. *)
Theorem augmented_layout r :
  length (augmentedSteps r) =
    (extra (has_intro r) + length (r_steps r) + extra (has_outro r))%nat /\
  (forall i s, nth_error (r_steps r) i = Some s ->
     nth_error (augmentedSteps r) (extra (has_intro r) + i) = Some s).
Proof. exact (augmented_index r). Qed.

Lemma or_else_nonempty a b : b <> "" -> or_else a b <> "".
Proof.
  unfold or_else, truthy. destruct a as [s|]; simpl; [|auto].
  destruct (String.eqb_spec s ""); simpl; auto.
Qed.

(** With an introduction, [augmentedSteps] starts with the added step
    numbered 0 and with a closing step it ends with the added step numbered
    one past the recipe's step count; each has a nonempty instruction (the
    given text, else the description or a fixed sentence), no duration, no
    tip, and the matching audio URL of the recipe. *)
Theorem added_steps_shape r :
  (has_intro r = true ->
   exists s, nth_error (augmentedSteps r) 0 = Some s /\ number s = 0%nat /\
     r_instruction s = or_else (intro_text r)
                         (or_else (description r) "Welcome to this recipe! Let's get started.") /\
     r_instruction s <> "" /\ r_duration s = None /\ r_tips s = None /\
     r_audio_url s = intro_audio_url r) /\
  (has_outro r = true ->
   exists s, nth_error (augmentedSteps r) (length (augmentedSteps r) - 1) = Some s /\
     number s = (length (r_steps r) + 1)%nat /\
     r_instruction s = or_else (outro_text r) "Serve hot and enjoy your meal!" /\
     r_instruction s <> "" /\ r_duration s = None /\ r_tips s = None /\
     r_audio_url s = outro_audio_url r).
Proof.
  destruct (augmentedSteps_shape r) as (pre & post & E & Hpre & Hpost & Ipre & Ipost).
  split; intros Hh.
  - rewrite Hh in Hpre. destruct pre as [|s [|]]; try discriminate.
    exists s. rewrite E. rewrite (Ipre s (or_introl eq_refl)). cbn.
    repeat split; try reflexivity. apply or_else_nonempty, or_else_nonempty; discriminate.
  - rewrite Hh in Hpost. destruct post as [|s [|]]; try discriminate.
    exists s. rewrite E, app_assoc, length_app. cbn [length].
    replace (length (pre ++ r_steps r) + 1 - 1)%nat with (length (pre ++ r_steps r)) by lia.
    rewrite nth_error_app2, Nat.sub_diag by lia. cbn [nth_error].
    rewrite (Ipost s (or_introl eq_refl)). cbn.
    repeat split; try reflexivity. apply or_else_nonempty; discriminate.
Qed.

Lemma added_steps_shape_witness :
  augmentedSteps sample_recipe =
    [mkRStep 0 "Onion fry" None None (Some "/audio/intro.mp3");
     mkRStep 1 "Chop the onions" None None None;
     mkRStep 2 "Fry them" (Some "5 minutes") None None;
     mkRStep 3 "Serve hot and enjoy your meal!" None None (Some "/audio/outro.mp3")] /\
  ((has_intro sample_recipe = true ->
    exists s, nth_error (augmentedSteps sample_recipe) 0 = Some s /\ number s = 0%nat /\
      r_instruction s = or_else (intro_text sample_recipe)
                          (or_else (description sample_recipe)
                             "Welcome to this recipe! Let's get started.") /\
      r_instruction s <> "" /\ r_duration s = None /\ r_tips s = None /\
      r_audio_url s = intro_audio_url sample_recipe) /\
   (has_outro sample_recipe = true ->
    exists s, nth_error (augmentedSteps sample_recipe)
                (length (augmentedSteps sample_recipe) - 1) = Some s /\
      number s = (length (r_steps sample_recipe) + 1)%nat /\
      r_instruction s = or_else (outro_text sample_recipe) "Serve hot and enjoy your meal!" /\
      r_instruction s <> "" /\ r_duration s = None /\ r_tips s = None /\
      r_audio_url s = outro_audio_url sample_recipe)).
Proof.
  split; [reflexivity|]. exact (added_steps_shape sample_recipe).
Defined.

(** With an introduction, the navigator reads recipe step [i] (counted
    from 0) at index [i + 1] and announces it as "Step i+2": every recipe
    step is spoken with a number one higher than its position among the
    recipe's steps counted from 1. *)
Theorem intro_shifts_spoken_numbers r i s :
  has_intro r = true -> nth_error (r_steps r) i = Some s ->
  nth_error (navigator_steps r) (S i) = Some (to_nav s) /\
  exists rest, narration (S i) (to_nav s) =
    "Step " ++ string_of_nat (i + 2) ++ ". " ++ r_instruction s ++ rest.
Proof.
  intros Hi Hs. split.
  - unfold navigator_steps. rewrite nth_error_map.
    destruct (augmented_index r) as [_ H]. specialize (H i s Hs).
    rewrite Hi in H. unfold extra in H. change (1 + i)%nat with (S i) in H. rewrite H. reflexivity.
  - replace (i + 2)%nat with (S (S i)) by lia.
    unfold narration. cbn [instruction duration tips to_nav].
    set (D := ". Duration: " ++ opt_text (r_duration s) ++ ".").
    set (T := ". Pro tip: " ++ opt_text (r_tips s) ++ ".").
    destruct (truthy (r_duration s)), (truthy (r_tips s)).
    + exists (D ++ T). rewrite <- !str_app_assoc. reflexivity.
    + exists D. rewrite <- !str_app_assoc. reflexivity.
    + exists T. rewrite <- !str_app_assoc. reflexivity.
    + exists "". rewrite str_app_nil_r. reflexivity.
Qed.

Lemma intro_shifts_spoken_numbers_witness :
  has_intro sample_recipe = true /\
  nth_error (r_steps sample_recipe) 1 = Some (mkRStep 2 "Fry them" (Some "5 minutes") None None) /\
  (nth_error (navigator_steps sample_recipe) 2 =
     Some (to_nav (mkRStep 2 "Fry them" (Some "5 minutes") None None)) /\
   exists rest, narration 2 (to_nav (mkRStep 2 "Fry them" (Some "5 minutes") None None)) =
     "Step " ++ string_of_nat (1 + 2) ++ ". " ++
     r_instruction (mkRStep 2 "Fry them" (Some "5 minutes") None None) ++ rest).
Proof.
  split; [reflexivity|]. split; [reflexivity|].
  apply (intro_shifts_spoken_numbers sample_recipe 1); reflexivity.
Defined.

End CookingProps.

Module ApiProps.
Import Synthesis Navigator Api ExtraSpec.

Lemma sends_anonymous_append anon tok ps :
  sends_anonymous ps = false ->
  sends_anonymous (append_anonymous anon tok ps) = truthy anon && negb (truthy tok).
Proof.
  intros H. unfold append_anonymous.
  destruct (truthy anon && negb (truthy tok)); [|exact H].
  unfold sends_anonymous in *. rewrite existsb_app, H. reflexivity.
Qed.

Lemma sends_bearer_only tok : sends_bearer (bearer_only tok) = truthy tok.
Proof. unfold bearer_only. destruct (truthy tok); reflexivity. Qed.

(** A logged-in user's requests carry the bearer token and never the
    anonymous id; an anonymous user's carry the id when it is set: the
    listing, search and save requests send [Authorization] exactly when
    there is a token and [anonymous_user_id] exactly when there is an id
    and no token, so never both. *)
Theorem auth_or_anonymous API_URL skip limit query anon tok :
  sends_bearer (r_headers (getRecipes API_URL skip limit anon tok)) = truthy tok /\
  sends_anonymous (getRecipes_params skip limit anon tok) = truthy anon && negb (truthy tok) /\
  sends_bearer (r_headers (searchRecipes API_URL query anon tok)) = truthy tok /\
  sends_anonymous (searchRecipes_params query anon tok) = truthy anon && negb (truthy tok) /\
  sends_bearer (r_headers (saveRecipe API_URL anon tok)) = truthy tok /\
  sends_anonymous (owner_params anon tok) = truthy anon && negb (truthy tok) /\
  sends_bearer (r_headers (getRecipes API_URL skip limit anon tok)) &&
  sends_anonymous (getRecipes_params skip limit anon tok) = false.
Proof.
  unfold getRecipes, searchRecipes, saveRecipe, getRecipes_params, searchRecipes_params,
    owner_params. cbn [r_headers].
  rewrite !sends_anonymous_append by reflexivity. rewrite !sends_bearer_only.
  unfold getAuthHeaders, sends_bearer. rewrite existsb_app. cbn.
  destruct (truthy tok), (truthy anon); cbn; repeat split.
Qed.

Lemma serialize_anonymous v :
  serialize [("anonymous_user_id", v)] = "anonymous_user_id=" ++ urlencode v.
Proof. reflexivity. Qed.

(** The delete and save requests add a query string only for an anonymous
    user: [?anonymous_user_id=] and the encoded id when there is an id and
    no token, otherwise the bare path with no [?]. *)
Theorem owner_query_string API_URL id anon tok :
  r_url (deleteRecipe API_URL id anon tok) =
    (if truthy anon && negb (truthy tok)
     then API_URL ++ "/api/recipes/" ++ string_of_nat id ++ "?anonymous_user_id="
                  ++ urlencode (opt_text anon)
     else API_URL ++ "/api/recipes/" ++ string_of_nat id) /\
  r_url (saveRecipe API_URL anon tok) =
    (if truthy anon && negb (truthy tok)
     then API_URL ++ "/api/recipes/save?anonymous_user_id=" ++ urlencode (opt_text anon)
     else API_URL ++ "/api/recipes/save").
Proof.
  unfold deleteRecipe, saveRecipe, owner_params, append_anonymous. cbn [r_url app].
  destruct (truthy anon && negb (truthy tok)); [|split; reflexivity].
  rewrite serialize_anonymous. cbn [String.eqb negb append]. split.
  - reflexivity.
  - reflexivity.
Qed.




Lemma hex_digit_safe k :
  (k < 16)%nat -> hex_digit k <> "&"%char /\ hex_digit k <> "="%char.
Proof.
  intros H. do 16 (destruct k as [|k]; [split; discriminate|]). lia.
Qed.

Lemma string_in_app (a b : string) c :
  In c (list_ascii_of_string (a ++ b)) ->
  In c (list_ascii_of_string a) \/ In c (list_ascii_of_string b).
Proof.
  induction a as [|x a IH]; simpl; [auto|].
  intros [->|H]; [left; left; reflexivity|].
  destruct (IH H); [left; right|right]; assumption.
Qed.

(** The encoder of query values never emits [&] or [=]: whatever a search
    query or an id contains, it stays one parameter of the query string. *)
Theorem urlencode_no_separators s c :
  In c (list_ascii_of_string (urlencode s)) -> c <> "&"%char /\ c <> "="%char.
Proof.
  induction s as [|x s IH]; cbn [urlencode]; [intros []|].
  intros Hin. apply string_in_app in Hin as [Hin|Hin]; [|exact (IH Hin)].
  clear IH.
  pose proof (nat_ascii_bounded x) as Hb.
  destruct (is_unreserved (nat_of_ascii x)) eqn:Hu.
  - cbn [list_ascii_of_string] in Hin.
    destruct Hin as [<-|[]]. split; intros E; subst x; vm_compute in Hu; discriminate Hu.
  - destruct (nat_of_ascii x =? 32)%nat; cbn [list_ascii_of_string] in Hin.
    + destruct Hin as [<-|[]]. split; discriminate.
    + destruct Hin as [<-|[<-|[<-|[]]]]; [split; discriminate| |];
        apply hex_digit_safe; [apply Nat.Div0.div_lt_upper_bound; lia|
                              apply Nat.mod_upper_bound; lia].
Qed.

Lemma urlencode_no_separators_witness :
  In "+"%char (list_ascii_of_string (urlencode "salt & pepper")) /\
  ("+"%char <> "&"%char /\ "+"%char <> "="%char).
Proof.
  assert (H : In "+"%char (list_ascii_of_string (urlencode "salt & pepper")))
    by (vm_compute; auto 20).
  split; [exact H|]. exact (urlencode_no_separators "salt & pepper" "+"%char H).
Defined.

End ApiProps.
